(** * cloudstorage: a helper layer over an object store, in Rocq

    A shallow embedding of [google/cloudstorage.go].  The Go functions are
    translated one by one; the collaborators they call (the storage client,
    [net/http], [archive/zip]) are modelled by their observable behaviour:
    a finite map of stored objects, a script of session faults, a log of the
    calls made, and an abstract lossless archive codec. *)

From Stdlib Require Import ZArith Ascii String.
From Stdlib.Strings Require Import Byte.
From stdpp Require Import gmap strings list fin_maps sorting.

Open Scope string_scope.
Open Scope Z_scope.

(** ** Errors, panics, contexts *)

(** What can go wrong between the caller and the store. *)
Inductive fault : Type :=
| AuthFailure
| NetworkFailure
| PermissionDenied
| DeadlineExceeded.

(** Go [error] values.  [ErrObjectNotExist] and [iterator_Done] are the
    sentinels the source compares against with [==]; [fmt_Errorf] keeps the
    format string, its string operands and the error it renders with [%v];
    [errors_New] is an error made by a collaborator or by a callback. *)
Inductive error : Type :=
| ErrObjectNotExist
| iterator_Done
| Transport (f : fault)
| errors_New (msg : string)
| fmt_Errorf (format : string) (operands : list string) (cause : error).

(** A value passed to [panic]. *)
Inductive panic : Type :=
| NilDereference
| SliceBoundsOutOfRange (low high : nat)
| LogPanic (e : error).

Inductive outcome (A : Type) : Type :=
| Ret (a : A)
| Panic (p : panic).
Arguments Ret {A} a.
Arguments Panic {A} p.

(** [context.Context] carries at most a deadline, kept as the duration
    (in nanoseconds) granted when it was set. *)
Record Context : Type := { deadline : option Z }.

Definition time_Second : Z := 1000000000.
Definition Timeout : Z := time_Second * 60.

Definition context_Background : Context := {| deadline := None |}.

Definition context_WithTimeout (parent : Context) (d : Z) : Context :=
  {| deadline := Some (match deadline parent with
                       | Some p => Z.min p d
                       | None => d
                       end) |}.

(** ** The world outside *)

(** The faults one client session will meet; [None] everywhere is a healthy
    session.  A fault is never "object not found": absence is decided by the
    store alone. *)
Record Session : Type := {
  dial_fault : option fault;      (* storage.NewClient *)
  copy_fault : option fault;      (* io.Copy into the object writer *)
  close_fault : option fault;     (* Writer.Close *)
  reader_fault : option fault;    (* ObjectHandle.NewReader *)
  read_fault : option fault;      (* ioutil.ReadAll on the reader *)
  attrs_fault : option fault;     (* ObjectHandle.Attrs *)
  list_fault : option (nat * fault) (* ObjectIterator.Next, after n objects *)
}.

Definition healthy : Session :=
  {| dial_fault := None; copy_fault := None; close_fault := None;
     reader_fault := None; read_fault := None; attrs_fault := None;
     list_fault := None |}.

Record http_Request : Type := {
  Method : string;
  URL : string;
  Header : list (string * string)  (* the Header.Add calls, in order *)
}.

Record http_Response : Type := {
  StatusCode : Z;
  Body : list byte;
  body_fault : option fault  (* ioutil.ReadAll on the body *)
}.

(** Calls that leave the process, with the context (or client timeout) they
    were given. *)
Inductive Call : Type :=
| CallNewClient (ctx : Context)
| CallNewWriter (ctx : Context) (bucket key : string)
| CallNewReader (ctx : Context) (bucket key : string)
| CallAttrs (ctx : Context) (bucket key : string)
| CallObjects (ctx : Context) (bucket prefix : string)
| CallHttpDo (timeout : Z) (req : http_Request).

Record World : Type := {
  objects : gmap (string * string) (list byte); (* (bucket, key) to content *)
  sessions : list Session;   (* faults of the sessions still to be opened *)
  web : http_Request -> http_Response + fault;
  calls : list Call          (* oldest first *)
}.

Definition set_objects (o : gmap (string * string) (list byte)) (w : World) : World :=
  {| objects := o; sessions := sessions w; web := web w; calls := calls w |}.

Definition set_sessions (s : list Session) (w : World) : World :=
  {| objects := objects w; sessions := s; web := web w; calls := calls w |}.

Definition record_call (c : Call) (w : World) : World :=
  {| objects := objects w; sessions := sessions w; web := web w;
     calls := calls w ++ [c] |}.

(** ** Computations: state passing with panics *)

Definition Go (A : Type) : Type := World -> outcome A * World.

Definition ret {A} (a : A) : Go A := fun w => (Ret a, w).

Definition bind {A B} (m : Go A) (k : A -> Go B) : Go B :=
  fun w => match m w with
           | (Ret a, w') => k a w'
           | (Panic p, w') => (Panic p, w')
           end.

Definition raise {A} (p : panic) : Go A := fun w => (Panic p, w).
Definition get_world : Go World := fun w => (Ret w, w).
Definition modify (f : World -> World) : Go unit := fun w => (Ret tt, f w).

Declare Scope go_scope.
Delimit Scope go_scope with go.
Notation "'do' p <- m ;; k" := (bind m (fun x => match x with p => k end))
  (at level 10, p pattern, m at level 99, k at level 200) : go_scope.
Notation "'run' m ;; k" := (bind m (fun _ => k))
  (at level 10, m at level 99, k at level 200) : go_scope.
Open Scope go_scope.

(** ** The storage client *)

Record Client : Type := { session : Session }.

(** [storage.NewClient]: opens the next session of the script (a healthy one
    when the script is exhausted). *)
Definition storage_NewClient (ctx : Context) : Go (option Client * option error) :=
  run modify (record_call (CallNewClient ctx)) ;;
  do w <- get_world ;;
  let s := List.hd healthy (sessions w) in
  run modify (set_sessions (List.tl (sessions w))) ;;
  match dial_fault s with
  | Some f => ret (None, Some (Transport f))
  | None => ret (Some {| session := s |}, None)
  end.

Record storage_Writer : Type := {
  w_client : Client;
  w_bucket : string;
  w_key : string;
  w_pending : list byte
}.

(** [client.Bucket(bucket).Object(path).NewWriter(ctx)].  A nil client is
    dereferenced on the way. *)
Definition NewWriter (client : option Client) (bucket path : string) (ctx : Context)
  : Go storage_Writer :=
  match client with
  | None => raise NilDereference
  | Some c =>
      run modify (record_call (CallNewWriter ctx bucket path)) ;;
      ret {| w_client := c; w_bucket := bucket; w_key := path; w_pending := [] |}
  end.

(** [io.Copy(wc, bytes.NewReader(data))]: the bytes are staged in the writer;
    nothing is visible in the store yet. *)
Definition io_Copy (wc : storage_Writer) (data : list byte)
  : Go (storage_Writer * option error) :=
  match copy_fault (session (w_client wc)) with
  | Some f => ret (wc, Some (Transport f))
  | None =>
      ret ({| w_client := w_client wc; w_bucket := w_bucket wc; w_key := w_key wc;
              w_pending := w_pending wc ++ data |}, None)
  end.

(** [Writer.Close]: the staged bytes become the object, all at once. *)
Definition Writer_Close (wc : storage_Writer) : Go (option error) :=
  match close_fault (session (w_client wc)) with
  | Some f => ret (Some (Transport f))
  | None =>
      do w <- get_world ;;
      run modify (set_objects (<[(w_bucket wc, w_key wc) := w_pending wc]> (objects w))) ;;
      ret None
  end.

Record storage_Reader : Type := {
  r_client : Client;
  r_content : list byte
}.

(** [client.Bucket(bucket).Object(path).NewReader(ctx)]. *)
Definition NewReader (client : option Client) (bucket path : string) (ctx : Context)
  : Go (option storage_Reader * option error) :=
  match client with
  | None => raise NilDereference
  | Some c =>
      run modify (record_call (CallNewReader ctx bucket path)) ;;
      do w <- get_world ;;
      match reader_fault (session c) with
      | Some f => ret (None, Some (Transport f))
      | None =>
          match objects w !! (bucket, path) with
          | None => ret (None, Some ErrObjectNotExist)
          | Some content => ret (Some {| r_client := c; r_content := content |}, None)
          end
      end
  end.

(** [ioutil.ReadAll(rc)]. *)
Definition ioutil_ReadAll (rc : option storage_Reader) : Go (list byte * option error) :=
  match rc with
  | None => raise NilDereference
  | Some r =>
      match read_fault (session (r_client r)) with
      | Some f => ret ([], Some (Transport f))
      | None => ret (r_content r, None)
      end
  end.

(** ** Blob transfer *)

Definition PutFile (bucket path : string) (data : list byte) : Go (option error) :=
  let ctx := context_Background in
  do (client, err) <- storage_NewClient ctx ;;
  match err with
  | Some e => ret (Some (fmt_Errorf "storage.NewClient: %v" [] e))
  | None =>
      let ctx := context_WithTimeout ctx Timeout in
      do wc <- NewWriter client bucket path ctx ;;
      do (wc, err) <- io_Copy wc data ;;
      match err with
      | Some e => ret (Some (fmt_Errorf "io.Copy: %v" [] e))
      | None =>
          do err <- Writer_Close wc ;;
          match err with
          | Some e => ret (Some (fmt_Errorf "Writer.Close: %v" [] e))
          | None => ret None
          end
      end
  end.

Definition GetFile (bucket path : string) : Go (list byte * option error) :=
  let ctx := context_Background in
  do (client, err) <- storage_NewClient ctx ;;
  match err with
  | Some e => ret ([], Some (fmt_Errorf "storage.NewClient: %v" [] e))
  | None =>
      let ctx := context_WithTimeout ctx Timeout in
      do (rc, err) <- NewReader client bucket path ctx ;;
      match err with
      | Some e => ret ([], Some (fmt_Errorf "Object(%q).NewReader: %v" [path] e))
      | None =>
          do (data, err) <- ioutil_ReadAll rc ;;
          match err with
          | Some e => ret ([], Some (fmt_Errorf "ioutil.ReadAll: %v" [] e))
          | None => ret (data, None)
          end
      end
  end.

(** ** Existence check *)

Record ObjectAttrs : Type := {
  Bucket : string;
  Name : string;
  Size : Z
}.

(** [client.Bucket(bucket).Object(path).Attrs(ctx)]. *)
Definition Attrs (client : option Client) (bucket path : string) (ctx : Context)
  : Go (option ObjectAttrs * option error) :=
  match client with
  | None => raise NilDereference
  | Some c =>
      run modify (record_call (CallAttrs ctx bucket path)) ;;
      do w <- get_world ;;
      match attrs_fault (session c) with
      | Some f => ret (None, Some (Transport f))
      | None =>
          match objects w !! (bucket, path) with
          | None => ret (None, Some ErrObjectNotExist)
          | Some content =>
              ret (Some {| Bucket := bucket; Name := path;
                           Size := Z.of_nat (length content) |}, None)
          end
      end
  end.

(** The error of [storage.NewClient] is dropped, and the context keeps no
    deadline.  [log.Panic] prints and then panics. *)
Definition Exists (bucket path : string) : Go bool :=
  let ctx := context_Background in
  do (client, _) <- storage_NewClient ctx ;;
  do (_, err) <- Attrs client bucket path ctx ;;
  match err with
  | Some ErrObjectNotExist => ret false
  | Some e => raise (LogPanic e)
  | None => ret true
  end.

(** ** Metadata views *)

(** [FileMetadata] embeds [storage.ObjectAttrs]. *)
Record FileMetadata : Type := { embedded :> ObjectAttrs }.

(** [strings.Split(s, sep)] for a separator of one byte: the segments
    between the occurrences of [sep], at least one segment. *)
Fixpoint strings_Split (s : string) (sep : ascii) : list string :=
  match s with
  | EmptyString => [EmptyString]
  | String c s' =>
      let rest := strings_Split s' sep in
      if Ascii.eqb c sep then EmptyString :: rest
      else match rest with
           | seg :: segs => String c seg :: segs
           | [] => [String c EmptyString]
           end
  end.

Definition slash : ascii := "/"%char.

Definition FileName (s : FileMetadata) : string :=
  let nameArray := strings_Split (Name s) slash in
  default EmptyString (nameArray !! (length nameArray - 1)%nat).

Definition FileMetadata_Get (s : FileMetadata) : Go (list byte * option error) :=
  GetFile (Bucket s) (Name s).

(** ** Listing *)

Definition name_le (a b : ObjectAttrs) : Prop := String.leb (Name a) (Name b) = true.

#[local] Instance name_le_dec a b : Decision (name_le a b).
Proof. unfold name_le. apply _. Defined.

(** What the store enumerates for [Query{Prefix: prefix}] in [bucket]: the
    objects of the bucket whose key starts with the prefix, by key in
    lexicographic order. *)
Definition enumerate (o : gmap (string * string) (list byte)) (bucket prefix : string)
  : list ObjectAttrs :=
  merge_sort name_le
    (omap (fun '((b, k), content) =>
             if decide (b = bucket) then
               if String.prefix prefix k
               then Some {| Bucket := b; Name := k; Size := Z.of_nat (length content) |}
               else None
             else None)
          (map_to_list o)).

Record ObjectIterator : Type := {
  pending : list ObjectAttrs;
  it_fault : option (nat * fault)
}.

(** [client.Bucket(bucket).Objects(ctx, &storage.Query{Prefix: path})]. *)
Definition Objects (client : option Client) (bucket : string) (ctx : Context)
    (prefix : string) : Go ObjectIterator :=
  match client with
  | None => raise NilDereference
  | Some c =>
      run modify (record_call (CallObjects ctx bucket prefix)) ;;
      do w <- get_world ;;
      ret {| pending := enumerate (objects w) bucket prefix;
             it_fault := list_fault (session c) |}
  end.

(** [it.Next()]. *)
Definition Next (it : ObjectIterator) : (option ObjectAttrs * option error) * ObjectIterator :=
  match it_fault it with
  | Some (O, f) => ((None, Some (Transport f)), it)
  | fl =>
      match pending it with
      | [] => ((None, Some iterator_Done), it)
      | attrs :: rest =>
          ((Some attrs, None),
           {| pending := rest;
              it_fault := match fl with
                          | Some (S n, f) => Some (n, f)
                          | other => other
                          end |})
      end
  end.

(** The first loop of [FilesAtPath], with [it.Next()] unfolded so that the
    recursion follows the objects still to come. *)
Fixpoint collect (bucket : string) (todo : list ObjectAttrs) (fl : option (nat * fault))
    (result : list FileMetadata) : list FileMetadata * option error :=
  match fl, todo with
  | Some (O, f), _ =>
      ([], Some (fmt_Errorf "Bucket(%q).Objects: %v" [bucket] (Transport f)))
  | _, [] => (result, None)
  | _, attrs :: rest =>
      let storageObject := {| embedded := attrs |} in
      let result :=
        if decide (FileName storageObject <> EmptyString)
        then (result ++ [storageObject])%list else result in
      collect bucket rest
        (match fl with Some (S n, f) => Some (n, f) | other => other end)
        result
  end.

(** A Go slice: a window of [len] elements on a backing array that other
    slice values may share. *)
Record slice (A : Type) : Type := {
  backing : list A;
  len : nat
}.
Arguments backing {A} s.
Arguments len {A} s.

Definition slice_of {A} (l : list A) : slice A := {| backing := l; len := length l |}.
Definition elements_of {A} (s : slice A) : list A := take (len s) (backing s).

(** [result = append(result[:i], result[i+1:]...)].  [result[i+1:]] needs
    [i+1 <= len(result)]; [result[:i]] may reach up to the capacity.  The
    elements move inside the shared backing array and the one beyond the
    new length stays where it was. *)
Definition remove_index {A} (result : slice A) (i : nat) : outcome (slice A) :=
  if decide (i + 1 <= len result)%nat then
    Ret {| backing := take i (backing result)
                      ++ take (len result - (i + 1)) (drop (i + 1) (backing result))
                      ++ drop (len result - 1) (backing result);
           len := (len result - 1)%nat |}
  else Panic (SliceBoundsOutOfRange (i + 1) (len result)).

(** [for i, object := range result { if !filter[0](object) { remove } }]:
    the indices run over the length the slice had when the loop began, and
    [object] is read from the backing array as it is by then. *)
Fixpoint filter_in_place (keep : FileMetadata -> bool) (indices : list nat)
    (result : slice FileMetadata) : outcome (slice FileMetadata) :=
  match indices with
  | [] => Ret result
  | i :: later =>
      match backing result !! i with
      | None => Panic (SliceBoundsOutOfRange i (length (backing result)))
      | Some object =>
          if negb (keep object) then
            match remove_index result i with
            | Ret result' => filter_in_place keep later result'
            | Panic p => Panic p
            end
          else filter_in_place keep later result
      end
  end.

Definition FilesAtPath (bucket path : string) (filter : list (FileMetadata -> bool))
  : Go (list FileMetadata * option error) :=
  let ctx := context_Background in
  do (client, err) <- storage_NewClient ctx ;;
  match err with
  | Some e => ret ([], Some (fmt_Errorf "storage.NewClient: %v" [] e))
  | None =>
      let ctx := context_WithTimeout ctx (time_Second * 30) in
      do it <- Objects client bucket ctx path ;;
      match collect bucket (pending it) (it_fault it) [] with
      | (_, Some e) => ret ([], Some e)
      | (result, None) =>
          match filter with
          | keep :: _ =>
              match filter_in_place keep (seq 0 (length result)) (slice_of result) with
              | Ret s => ret (elements_of s, None)
              | Panic p => raise p
              end
          | [] => ret (result, None)
          end
      end
  end.

(** ** Transform helpers *)


Definition ProcessAndUpdateFile (bucket path : string)
    (process : list byte -> Go (list byte * option error)) : Go (option error) :=
  do (data, err) <- GetFile bucket path ;;
  match err with
  | Some e => ret (Some e)
  | None =>
      do (processedData, err) <- process data ;;
      match err with
      | Some e => ret (Some e)
      | None => PutFile bucket path processedData
      end
  end.

(** ** Collaborators taken as parameters

    [url_Parse] is [net/url]'s parser as [http.NewRequest] uses it; [range]
    is the order in which one [for ... range] statement visits a Go map,
    which the language leaves open; [zip_encode] and [zip_decode] are the
    byte format of [archive/zip], which is lossless on the entries its
    writer accepts. *)

Definition zip_entry : Type := (string * list byte)%type.

Fixpoint strings_HasSuffix (s : string) (c : ascii) : bool :=
  match s with
  | EmptyString => false
  | String a EmptyString => Ascii.eqb a c
  | String _ s' => strings_HasSuffix s' c
  end.

Definition uint16max : Z := 65535.

(** An entry the zip writer takes without an error: a name that fits 16 bits
    of length, and no content under a directory name. *)
Definition entry_ok (e : zip_entry) : Prop :=
  (Z.of_nat (String.length e.1) <= uint16max)%Z /\
  (strings_HasSuffix e.1 slash = true -> e.2 = []).

(** A file of an opened archive: its name and what [Open] followed by
    [ioutil.ReadAll] gives. *)
Record zip_File : Type := {
  zf_Name : string;
  zf_read : list byte + error
}.

Definition stored (e : zip_entry) : zip_File :=
  {| zf_Name := e.1; zf_read := inl e.2 |}.

Record zip_Writer : Type := {
  finished : list zip_entry;
  current : option zip_entry
}.

Inductive entry_writer : Type :=
| fileWriter
| dirWriter.

Definition zip_NewWriter : zip_Writer := {| finished := []; current := None |}.

Definition all_entries (zw : zip_Writer) : list zip_entry :=
  (finished zw ++ match current zw with Some e => [e] | None => [] end)%list.

(** [Writer.Create(name)]: closes the entry being written and starts a new
    one; a trailing slash makes it a directory. *)
Definition zip_Create (zw : zip_Writer) (name : string)
  : (option entry_writer * option error) * zip_Writer :=
  if decide (uint16max < Z.of_nat (String.length name))%Z then
    ((None, Some (errors_New "zip: FileHeader.Name too long")), zw)
  else
    let zw' := {| finished := all_entries zw; current := Some (name, []) |} in
    if strings_HasSuffix name slash then ((Some dirWriter, None), zw')
    else ((Some fileWriter, None), zw').

(** [zipFile.Write(content)]. *)
Definition entry_Write (zw : zip_Writer) (zipFile : option entry_writer)
    (content : list byte) : outcome (option error * zip_Writer) :=
  match zipFile with
  | None => Panic NilDereference
  | Some dirWriter =>
      match content with
      | [] => Ret (None, zw)
      | _ => Ret (Some (errors_New "zip: write to directory"), zw)
      end
  | Some fileWriter =>
      Ret (None, {| finished := finished zw;
                    current := match current zw with
                               | Some (name, data) => Some (name, (data ++ content)%list)
                               | None => None
                               end |})
  end.

Record http_Client : Type := { ClientTimeout : Z }.

(** [http.Client{}]: the zero value, whose timeout of zero means none. *)
Definition http_Client_zero : http_Client := {| ClientTimeout := 0 |}.

(** [req.Header.Add(header, value)] through a request pointer. *)
Definition Header_Add (req : option http_Request) (header value : string)
  : outcome (option http_Request) :=
  match req with
  | None => Panic NilDereference
  | Some r =>
      Ret (Some {| Method := Method r; URL := URL r;
                   Header := (Header r ++ [(header, value)])%list |})
  end.

Fixpoint add_headers (req : option http_Request) (visit : list (string * string))
  : outcome (option http_Request) :=
  match visit with
  | [] => Ret req
  | (header, value) :: later =>
      match Header_Add req header value with
      | Ret req' => add_headers req' later
      | Panic p => Panic p
      end
  end.

(** [client.Do(req)]. *)
Definition http_Do (client : http_Client) (req : option http_Request)
  : Go (option http_Response * option error) :=
  match req with
  | None => raise NilDereference
  | Some r =>
      run modify (record_call (CallHttpDo (ClientTimeout client) r)) ;;
      do w <- get_world ;;
      match web w r with
      | inl result => ret (Some result, None)
      | inr f => ret (None, Some (Transport f))
      end
  end.

(** [ioutil.ReadAll(result.Body)]. *)
Definition read_body (result : option http_Response) : Go (list byte * option error) :=
  match result with
  | None => raise NilDereference
  | Some r =>
      match body_fault r with
      | Some f => ret ([], Some (Transport f))
      | None => ret (Body r, None)
      end
  end.

Section Collaborators.

Variable url_Parse : string -> option error.
Variable range : forall A : Type, gmap string A -> list (string * A).
Variable zip_encode : list zip_entry -> list byte.
Variable zip_decode : list byte -> option (list zip_File).

(** [http.NewRequest(method, url, nil)] with a valid method. *)
Definition http_NewRequest (method url : string) : option http_Request * option error :=
  match url_Parse url with
  | Some e => (None, Some e)
  | None => (Some {| Method := method; URL := url; Header := [] |}, None)
  end.

(** ** Network import *)

Definition SaveNetworkFile (targetUrl destinationBucket destinationPath : string)
    (headers : option (gmap string string)) : Go (list byte * option error) :=
  let client := http_Client_zero in
  let '(req, err) := http_NewRequest "GET" targetUrl in
  match (match headers with
         | Some hs => add_headers req (range string hs)
         | None => Ret req
         end) with
  | Panic p => raise p
  | Ret req =>
      match err with
      | Some e => ret ([], Some e)
      | None =>
          do (result, err) <- http_Do client req ;;
          match err with
          | Some e => ret ([], Some e)
          | None =>
              do (body, err) <- read_body result ;;
              match err with
              | Some e => ret ([], Some e)
              | None =>
                  do err <- PutFile destinationBucket destinationPath body ;;
                  ret (body, err)
              end
          end
      end
  end.

(** ** Archive helpers *)

Fixpoint Zip_entries (zipWriter : zip_Writer) (visit : list zip_entry)
  : outcome (zip_Writer * option error) :=
  match visit with
  | [] => Ret (zipWriter, None)
  | (filename, content) :: later =>
      let '((zipFile, err), zipWriter) := zip_Create zipWriter filename in
      match err with
      | Some e => Ret (zipWriter, Some e)
      | None =>
          match entry_Write zipWriter zipFile content with
          | Panic p => Panic p
          | Ret (Some e, zipWriter) => Ret (zipWriter, Some e)
          | Ret (None, zipWriter) => Zip_entries zipWriter later
          end
      end
  end.

(** [zipWriter.Close()] on a buffer in memory writes the directory and
    cannot fail; [buf.Bytes()] is then the encoded archive. *)
Definition Zip (files : gmap string (list byte)) : outcome (list byte * option error) :=
  let zipWriter := zip_NewWriter in
  match Zip_entries zipWriter (range (list byte) files) with
  | Panic p => Panic p
  | Ret (_, Some e) => Ret ([], Some e)
  | Ret (zipWriter, None) => Ret (zip_encode (all_entries zipWriter), None)
  end.

Fixpoint UnZip_files (files : list zip_File) (result : gmap string (list byte))
  : gmap string (list byte) * option error :=
  match files with
  | [] => (result, None)
  | contentFile :: later =>
      match zf_read contentFile with
      | inr e => (∅, Some e)
      | inl contentBytes =>
          UnZip_files later (<[zf_Name contentFile := contentBytes]> result)
      end
  end.

Definition UnZip (file : list byte) : gmap string (list byte) * option error :=
  let result : gmap string (list byte) := ∅ in
  match zip_decode file with
  | None => (∅, Some (errors_New "zip: not a valid zip file"))
  | Some files => UnZip_files files result
  end.

(** The request [SaveNetworkFile] sends for a URL that parses. *)
Definition request_for (targetUrl : string) (headers : option (gmap string string))
  : http_Request :=
  {| Method := "GET"; URL := targetUrl;
     Header := match headers with Some hs => range string hs | None => [] end |}.

End Collaborators.

(** * Vocabulary of the statements *)

(** The session the next [storage.NewClient] opens. *)
Definition next_session (w : World) : Session := List.hd healthy (sessions w).

Definition can_write (s : Session) : Prop :=
  dial_fault s = None /\ copy_fault s = None /\ close_fault s = None.

Definition can_read (s : Session) : Prop :=
  dial_fault s = None /\ reader_fault s = None /\ read_fault s = None.

(** The deadline a call was given, if any; a client timeout of zero is none. *)
Definition call_deadline (c : Call) : option Z :=
  match c with
  | CallNewClient ctx | CallNewWriter ctx _ _ | CallNewReader ctx _ _
  | CallAttrs ctx _ _ | CallObjects ctx _ _ => deadline ctx
  | CallHttpDo timeout _ => if decide (timeout = 0%Z) then None else Some timeout
  end.



Definition leaf_of (key : string) : string :=
  default EmptyString (last (strings_Split key slash)).

Definition has_slash (s : string) : Prop := slash ∈ list_ascii_of_string s.

Definition well_formed {A} (s : slice A) : Prop := (len s <= length (backing s))%nat.

Definition view (attrs : ObjectAttrs) : FileMetadata := {| embedded := attrs |}.

(** The views the first loop keeps: those with a leaf name. *)
Definition views (found : list ObjectAttrs) : list FileMetadata :=
  filter (fun m => FileName m <> EmptyString) (view <$> found).

(** The fault of the enumeration strikes within the objects to come. *)
Definition strikes (fl : option (nat * fault)) (todo : list ObjectAttrs) : option fault :=
  match fl with
  | Some (n, f) => if decide (n <= length todo)%nat then Some f else None
  | None => None
  end.

(** What [FilesAtPath] returns, by cases on the session it opens. *)
Definition FilesAtPath_answer (bucket path : string) (filter : list (FileMetadata -> bool))
    (w : World) : outcome (list FileMetadata * option error) :=
  match dial_fault (next_session w) with
  | Some f => Ret ([], Some (fmt_Errorf "storage.NewClient: %v" [] (Transport f)))
  | None =>
      let found := enumerate (objects w) bucket path in
      match strikes (list_fault (next_session w)) found with
      | Some f =>
          Ret ([], Some (fmt_Errorf "Bucket(%q).Objects: %v" [bucket] (Transport f)))
      | None =>
          match filter with
          | [] => Ret (views found, None)
          | keep :: _ =>
              match filter_in_place keep (seq 0 (length (views found)))
                      (slice_of (views found)) with
              | Ret s => Ret (elements_of s, None)
              | Panic p => Panic p
              end
          end
      end
  end.

(** The store of the examples: three files under [p/] and the marker of the
    prefix itself. *)
Definition demo_objects : gmap (string * string) (list byte) :=
  <[("bkt", "p/a") := [x01]]>
    (<[("bkt", "p/b") := [x02]]>
       (<[("bkt", "p/c") := [x03]]> (<[("bkt", "p/") := []]> ∅))).

Definition demo_world : World :=
  {| objects := demo_objects; sessions := [];
     web := fun _ => inr NetworkFailure; calls := [] |}.

Definition demo_view (key : string) : FileMetadata :=
  {| embedded := {| Bucket := "bkt"; Name := key; Size := 1 |} |}.

(** The predicate that accepts exactly the views with leaf name [leaf]. *)
Definition only (leaf : string) (m : FileMetadata) : bool :=
  bool_decide (FileName m = leaf).

(** A reference archive codec: a byte format that is lossless in the sense
    the development asks of [archive/zip]; it serves to run the archive
    helpers on examples. *)
Fixpoint unary (n : nat) : list byte :=
  match n with
  | O => [x00]
  | S n => x01 :: unary n
  end.

Definition chunk (bs : list byte) : list byte := (unary (length bs) ++ bs)%list.

Definition ref_encode_entry (e : zip_entry) : list byte :=
  x01 :: (chunk (list_byte_of_string e.1) ++ chunk e.2)%list.

Fixpoint ref_encode (es : list zip_entry) : list byte :=
  match es with
  | [] => [x00]
  | e :: es => (ref_encode_entry e ++ ref_encode es)%list
  end.

Fixpoint read_unary (bs : list byte) : option (nat * list byte) :=
  match bs with
  | x00 :: rest => Some (O, rest)
  | x01 :: rest =>
      match read_unary rest with
      | Some (n, rest') => Some (S n, rest')
      | None => None
      end
  | _ => None
  end.

Definition read_chunk (bs : list byte) : option (list byte * list byte) :=
  match read_unary bs with
  | Some (n, rest) =>
      if decide (n <= length rest)%nat then Some (take n rest, drop n rest) else None
  | None => None
  end.

Fixpoint ref_decode_entries (fuel : nat) (bs : list byte) : option (list zip_File) :=
  match fuel with
  | O => None
  | S fuel =>
      match bs with
      | [x00] => Some []
      | x01 :: rest =>
          match read_chunk rest with
          | Some (name, rest1) =>
              match read_chunk rest1 with
              | Some (content, rest2) =>
                  match ref_decode_entries fuel rest2 with
                  | Some files =>
                      Some ({| zf_Name := string_of_list_byte name;
                               zf_read := inl content |} :: files)
                  | None => None
                  end
              | None => None
              end
          | None => None
          end
      | _ => None
      end
  end.

Definition ref_decode (bs : list byte) : option (list zip_File) :=
  ref_decode_entries (S (length bs)) bs.

(** Visiting a map in the order of its list of entries. *)
Definition ref_range (A : Type) (m : gmap string A) : list (string * A) := map_to_list m.

(** A parser that refuses the URLs without a scheme, as [net/url] does
    for [":bad"]. *)
Definition ref_url_Parse (url : string) : option error :=
  if String.prefix ":" url then Some (errors_New "missing protocol scheme") else None.

Definition demo_files : gmap string (list byte) :=
  <["a.txt" := [x01; x02]]> (<["dir/" := []]> ∅).

Definition demo_headers : gmap string string := <["Accept" := "text/plain"]> ∅.

(** A server that answers every request with a 404 and a short body. *)
Definition not_found_page : http_Response :=
  {| StatusCode := 404; Body := [x34; x30; x34]; body_fault := None |}.

Definition demo_web_world : World :=
  {| objects := demo_objects; sessions := [];
     web := fun _ => inl not_found_page; calls := [] |}.


(** ** Vocabulary of the further properties *)

(** Whether a call opens a session with the store. *)
Definition opens_session (c : Call) : bool :=
  match c with CallNewClient _ => true | _ => false end.

(** The world once the next session has been opened. *)
Definition after_session (w : World) : World := set_sessions (List.tl (sessions w)) w.

(** A callback of [ProcessAndUpdateFile] that computes the new bytes from
    the old ones and does nothing else. *)
Definition pure_update (f : list byte -> list byte)
  : list byte -> Go (list byte * option error) :=
  fun file => ret (f file, None).

(** The attributes the store reports for an object. *)
Definition attrs_of (bucket key : string) (content : list byte) : ObjectAttrs :=
  {| Bucket := bucket; Name := key; Size := Z.of_nat (length content) |}.

(** The loop of [FilesAtPath] over [it.Next()] as it is written; [None]
    when the fuel runs out (the iterator never gives a nil object together
    with a nil error). *)
Fixpoint listing_loop (fuel : nat) (bucket : string) (it : ObjectIterator)
    (result : list FileMetadata) : option (list FileMetadata * option error) :=
  match fuel with
  | O => None
  | S fuel =>
      let '((attrs, err), it) := Next it in
      match err, attrs with
      | Some iterator_Done, _ => Some (result, None)
      | Some e, _ => Some ([], Some (fmt_Errorf "Bucket(%q).Objects: %v" [bucket] e))
      | None, None => None
      | None, Some attrs =>
          let storageObject := {| embedded := attrs |} in
          listing_loop fuel bucket it
            (if decide (FileName storageObject <> EmptyString)
             then (result ++ [storageObject])%list else result)
      end
  end.

(** What the filter loop leaves of a listing whose last view is accepted:
    after a view the predicate rejects, the next one moves into its place
    and is never shown to the predicate. *)
Fixpoint lets_next_through {A} (keep : A -> bool) (l : list A) : list A :=
  match l with
  | [] => []
  | x :: rest =>
      if keep x then x :: lets_next_through keep rest
      else match rest with
           | [] => []
           | y :: rest' => y :: lets_next_through keep rest'
           end
  end.

(** The entries of an archive as a third party may write it: two under one
    name. *)
Definition twice_a : list zip_entry := [("a", [x01]); ("a", [x02])].

(** A server whose answer breaks off while the body is read. *)
Definition broken_page : http_Response :=
  {| StatusCode := 200; Body := [x01]; body_fault := Some NetworkFailure |}.

Definition broken_web_world : World :=
  {| objects := demo_objects; sessions := [];
     web := fun _ => inl broken_page; calls := [] |}.

(** * Properties *)

(** ** Running computations *)

Ltac go_unfold :=
  unfold PutFile, GetFile, Exists, storage_NewClient, NewWriter, io_Copy,
    Writer_Close, NewReader, ioutil_ReadAll, Attrs, bind, ret, raise,
    get_world, modify, record_call, set_sessions, set_objects; cbn.


Lemma PutFile_success bucket path data w w' :
  PutFile bucket path data w = (Ret None, w') ->
  objects w' = <[(bucket, path) := data]> (objects w).
Proof.
  go_unfold. destruct (List.hd healthy (sessions w)) as [d c cl r rd a l]; cbn.
  destruct d; cbn; [congruence|]. destruct c; cbn; [congruence|].
  destruct cl; cbn; [congruence|]. intros [= <-]. reflexivity.
Qed.


Lemma PutFile_healthy bucket path data w :
  can_write (next_session w) ->
  exists w', PutFile bucket path data w = (Ret None, w').
Proof.
  unfold can_write, next_session. go_unfold.
  destruct (List.hd healthy (sessions w)) as [d c cl r rd a l]; cbn.
  intros (-> & -> & ->). cbn. eauto.
Qed.

Lemma GetFile_returns bucket path w :
  exists data err w', GetFile bucket path w = (Ret (data, err), w').
Proof.
  go_unfold. destruct (List.hd healthy (sessions w)) as [d c cl r rd a l]; cbn.
  destruct d; cbn; [eauto|]. destruct r; cbn; [eauto|].
  destruct (objects w !! (bucket, path)); cbn; [|eauto]. destruct rd; cbn; eauto.
Qed.

Lemma GetFile_frame bucket path w r w' :
  GetFile bucket path w = (r, w') -> objects w' = objects w.
Proof.
  go_unfold. destruct (List.hd healthy (sessions w)) as [d c cl rf rd a l]; cbn.
  destruct d; cbn; [by intros [= _ <-]|]. destruct rf; cbn; [by intros [= _ <-]|].
  destruct (objects w !! (bucket, path)); cbn; [|by intros [= _ <-]].
  destruct rd; cbn; by intros [= _ <-].
Qed.

Lemma GetFile_success bucket path w data w' :
  GetFile bucket path w = (Ret (data, None), w') ->
  objects w !! (bucket, path) = Some data.
Proof.
  go_unfold. destruct (List.hd healthy (sessions w)) as [d c cl rf rd a l]; cbn.
  destruct d; cbn; [congruence|]. destruct rf; cbn; [congruence|].
  destruct (objects w !! (bucket, path)); cbn; [|congruence].
  destruct rd; cbn; congruence.
Qed.

Lemma GetFile_failure bucket path w data e w' :
  GetFile bucket path w = (Ret (data, Some e), w') -> data = [].
Proof.
  go_unfold. destruct (List.hd healthy (sessions w)) as [d c cl rf rd a l]; cbn.
  destruct d; cbn; [congruence|]. destruct rf; cbn; [congruence|].
  destruct (objects w !! (bucket, path)); cbn; [|congruence].
  destruct rd; cbn; congruence.
Qed.

Lemma GetFile_healthy bucket path w data :
  can_read (next_session w) ->
  objects w !! (bucket, path) = Some data ->
  exists w', GetFile bucket path w = (Ret (data, None), w').
Proof.
  unfold can_read, next_session. go_unfold.
  destruct (List.hd healthy (sessions w)) as [d c cl rf rd a l]; cbn.
  intros (-> & -> & ->) Hobj. cbn. rewrite Hobj. cbn. eauto.
Qed.

(** C3.  When [PutFile bucket path data] succeeds, the object at
    [(bucket, path)] is [data] in full and every other object is as before;
    from then on, as long as that object is not written again, [GetFile]
    never returns other bytes than [data], and returns exactly [data]
    whenever its session can read. *)
Theorem PutFile_then_GetFile bucket path data w w1 :
  PutFile bucket path data w = (Ret None, w1) ->
  objects w1 !! (bucket, path) = Some data /\
  (forall k, k <> (bucket, path) -> objects w1 !! k = objects w !! k) /\
  forall w2, objects w2 !! (bucket, path) = objects w1 !! (bucket, path) ->
    (forall got w3, GetFile bucket path w2 = (Ret (got, None), w3) -> got = data) /\
    (can_read (next_session w2) ->
     exists w3, GetFile bucket path w2 = (Ret (data, None), w3)).
Proof.
  intros Hput. apply PutFile_success in Hput. rewrite Hput.
  split; [apply lookup_insert_eq|]. split.
  - intros k Hk. by rewrite lookup_insert_ne.
  - intros w2. rewrite lookup_insert_eq. intros Hw2. split.
    + intros got w3 Hget. apply GetFile_success in Hget. congruence.
    + intros Hs. by apply GetFile_healthy.
Qed.

(** ** Existence check *)

Lemma Attrs_not_exist c bucket path ctx w r w' :
  Attrs (Some c) bucket path ctx w = (Ret (r, Some ErrObjectNotExist), w') ->
  attrs_fault (session c) = None /\ objects w !! (bucket, path) = None.
Proof.
  go_unfold. destruct (attrs_fault (session c)); cbn; [congruence|].
  destruct (objects w !! (bucket, path)); cbn; [congruence|]. auto.
Qed.


(** C7.  The calls [Exists] makes carry no deadline at all: both go out
    under [context.Background], and when the session opens the metadata
    request is one of them. *)
Theorem Exists_calls_have_no_deadline bucket path w :
  exists issued,
    calls (snd (Exists bucket path w)) = (calls w ++ issued)%list /\
    Forall (fun c => call_deadline c = None) issued /\
    (dial_fault (next_session w) = None ->
     CallAttrs context_Background bucket path ∈ issued).
Proof.
  unfold next_session. go_unfold.
  destruct (List.hd healthy (sessions w)) as [d c cl r rd a l]; cbn.
  destruct d as [fd|]; cbn.
  - exists [CallNewClient context_Background]. split; [done|].
    split; [by repeat constructor | congruence].
  - exists [CallNewClient context_Background; CallAttrs context_Background bucket path].
    split.
    + destruct a; cbn; [by rewrite <- app_assoc|].
      destruct (objects w !! (bucket, path)); cbn; by rewrite <- app_assoc.
    + split; [by repeat constructor|]. intros _. set_solver.
Qed.

(** ** Transform helpers *)


Lemma ProcessAndUpdateFile_unfold bucket path process w :
  ProcessAndUpdateFile bucket path process w =
  match GetFile bucket path w with
  | (Ret (_, Some e), w1) => (Ret (Some e), w1)
  | (Ret (data, None), w1) =>
      match process data w1 with
      | (Ret (_, Some e), w2) => (Ret (Some e), w2)
      | (Ret (processedData, None), w2) => PutFile bucket path processedData w2
      | (Panic p, w2) => (Panic p, w2)
      end
  | (Panic p, w1) => (Panic p, w1)
  end.
Proof.
  unfold ProcessAndUpdateFile, bind.
  destruct (GetFile bucket path w) as [[[data [e|]]|p] w1]; try done.
  by destruct (process data w1) as [[[processedData [e|]]|p] w2].
Qed.



(** ** Leaf names *)

Lemma strings_Split_nonempty s sep : strings_Split s sep <> [].
Proof.
  destruct s as [|c s]; cbn; [done|].
  destruct (Ascii.eqb c sep); [done|]. by destruct (strings_Split s sep).
Qed.

Lemma FileName_leaf_of m : FileName m = leaf_of (Name m).
Proof. unfold FileName, leaf_of. by rewrite last_lookup, Nat.sub_1_r. Qed.

Lemma leaf_of_cons c key :
  leaf_of (String c key) =
  if Ascii.eqb c slash then leaf_of key
  else match strings_Split key slash with
       | [seg] => String c seg
       | _ => leaf_of key
       end.
Proof.
  unfold leaf_of. cbn. pose proof (strings_Split_nonempty key slash) as Hne.
  destruct (Ascii.eqb c slash).
  - destruct (strings_Split key slash) as [|seg segs]; [done|]. done.
  - destruct (strings_Split key slash) as [|seg [|seg' segs]]; done.
Qed.

Lemma strings_Split_one key seg :
  strings_Split key slash = [seg] -> key = seg /\ ~ has_slash key.
Proof.
  revert seg. induction key as [|c key IH]; intros seg; cbn.
  - intros [= <-]. split; [done|]. unfold has_slash. cbn. set_solver.
  - destruct (Ascii.eqb c slash) eqn:Hc.
    + intros [= _ Hnil]. by destruct (strings_Split_nonempty key slash).
    + destruct (strings_Split key slash) as [|s1 [|s2 rest]] eqn:Hsplit;
        [by destruct (strings_Split_nonempty key slash)| |intros; simplify_eq].
      intros [= <-]. destruct (IH s1 eq_refl) as [-> Hno]. split; [done|].
      unfold has_slash in *. cbn. apply Ascii.eqb_neq in Hc. set_solver.
Qed.

Lemma strings_Split_no_slash key :
  ~ has_slash key -> strings_Split key slash = [key].
Proof.
  induction key as [|c key IH]; cbn; [done|]. unfold has_slash in *. cbn.
  intros Hno. destruct (Ascii.eqb c slash) eqn:Hc.
  - apply Ascii.eqb_eq in Hc. set_solver.
  - rewrite IH; [done|]. set_solver.
Qed.

(** The leaf name is what follows the last slash of the key: the key is a
    prefix followed by the leaf name, the prefix is empty or ends in a slash,
    and the leaf name holds no slash. *)
Lemma leaf_of_is_last_segment key :
  exists prefix,
    key = (prefix ++ leaf_of key)%string /\
    (prefix = EmptyString \/ strings_HasSuffix prefix slash = true) /\
    ~ has_slash (leaf_of key).
Proof.
  induction key as [|c key (prefix & Hkey & Hprefix & Hleaf)].
  - exists EmptyString. repeat split; [by left|]. unfold has_slash. cbn. set_solver.
  - rewrite leaf_of_cons. destruct (Ascii.eqb c slash) eqn:Hc.
    + exists (String c prefix). cbn. split; [change (String c key = String c (prefix +:+ leaf_of key)); by f_equal|].
      split; [|done].
      right. apply Ascii.eqb_eq in Hc as ->.
      destruct Hprefix as [->|Hs]; [done|]. cbn. by destruct prefix.
    + destruct (strings_Split key slash) as [|seg [|seg' rest]] eqn:Hsplit.
      * by destruct (strings_Split_nonempty key slash).
      * apply strings_Split_one in Hsplit as [<- Hno].
        exists EmptyString. repeat split; [by left|].
        unfold has_slash in *. cbn. apply Ascii.eqb_neq in Hc. set_solver.
      * exists (String c prefix). cbn. split; [change (String c key = String c (prefix +:+ leaf_of key)); by f_equal|].
      split; [|done].
        right. destruct Hprefix as [->|Hs].
        -- change (key = leaf_of key) in Hkey. rewrite <- Hkey in Hleaf.
           apply strings_Split_no_slash in Hleaf. congruence.
        -- cbn. by destruct prefix.
Qed.

(** ** Slices and the filter loop *)

Lemma slice_of_well_formed {A} (l : list A) : well_formed (slice_of l).
Proof. unfold well_formed, slice_of. cbn. lia. Qed.

Lemma elements_of_slice_of {A} (l : list A) : elements_of (slice_of l) = l.
Proof. unfold elements_of, slice_of. cbn. apply firstn_all. Qed.

Lemma remove_index_Ret {A} (s s' : slice A) i :
  well_formed s -> remove_index s i = Ret s' ->
  (i < len s)%nat /\ well_formed s' /\
  length (backing s') = length (backing s) /\
  len s' = (len s - 1)%nat /\
  elements_of s' = delete i (elements_of s) /\
  drop (len s - 1) (backing s') = drop (len s - 1) (backing s).
Proof.
  unfold well_formed, remove_index, elements_of. intros Hwf.
  destruct (decide (i + 1 <= len s)%nat) as [Hi|]; [|done]. intros [= <-]. cbn.
  assert (Hmid : length (take (len s - (i + 1)) (drop (i + 1) (backing s)))
                 = (len s - (i + 1))%nat).
  { rewrite length_take, length_drop. lia. }
  assert (Hpre : length (take i (backing s)) = i) by (rewrite length_take; lia).
  assert (Htail : length (drop (len s - 1) (backing s))
                  = (length (backing s) - (len s - 1))%nat) by apply length_drop.
  split; [lia|]. split; [rewrite !length_app; lia|]. split; [rewrite !length_app; lia|].
  split; [done|]. split.
  - rewrite app_assoc, take_app_length' by (rewrite length_app; lia).
    rewrite delete_take_drop, take_take, take_drop_commute.
    replace (i `min` len s)%nat with i by lia.
    replace (i + 1 + (len s - (i + 1)))%nat with (len s) by lia.
    by replace (i + 1)%nat with (S i) by lia.
  - rewrite app_assoc, drop_app_ge by (rewrite length_app; lia).
    rewrite length_app, Hpre, Hmid.
    by replace (len s - 1 - (i + (len s - (i + 1))))%nat with 0%nat by lia.
Qed.

Lemma filter_delete_rejected {A} (keep : A -> bool) (l : list A) i x :
  l !! i = Some x -> keep x = false ->
  List.filter keep (delete i l) = List.filter keep l.
Proof.
  revert i. induction l as [|y l IH]; intros [|i]; try done.
  - simpl. intros [= ->] ->. done.
  - intros Hl Hx. change (delete (S i) (y :: l)) with (y :: delete i l).
    simpl. by rewrite (IH i).
Qed.

(** Whatever the loop returns is the input with some rejected elements taken
    out: no accepted element is lost, the order is kept, and rejected ones
    may stay. *)
Lemma filter_in_place_Ret keep indices s s' :
  well_formed s -> filter_in_place keep indices s = Ret s' ->
  well_formed s' /\
  elements_of s' `sublist_of` elements_of s /\
  List.filter keep (elements_of s') = List.filter keep (elements_of s).
Proof.
  revert s. induction indices as [|i later IH]; intros s Hwf; cbn.
  { by intros [= <-]. }
  destruct (backing s !! i) as [object|] eqn:Hobj; [|done].
  destruct (keep object) eqn:Hkeep; cbn; [by apply IH|].
  destruct (remove_index s i) as [s1|p] eqn:Hrm; [|done].
  destruct (remove_index_Ret _ _ _ Hwf Hrm) as (Hi & Hwf1 & _ & _ & Hel & _).
  intros Hrun. destruct (IH _ Hwf1 Hrun) as (Hwf' & Hsub & Hfil).
  split; [done|]. rewrite Hel in Hsub, Hfil. split.
  - etrans; [exact Hsub|]. apply sublist_delete.
  - rewrite Hfil. eapply filter_delete_rejected; [|done].
    unfold elements_of. by rewrite lookup_take_lt.
Qed.

Lemma filter_in_place_accepts_all keep indices s :
  (forall i object, i ∈ indices -> backing s !! i = Some object -> keep object = true) ->
  Forall (fun i => i < length (backing s))%nat indices ->
  filter_in_place keep indices s = Ret s.
Proof.
  induction indices as [|i later IH]; intros Hkeep Hin; cbn; [done|].
  apply Forall_cons in Hin as [Hi Hin].
  destruct (lookup_lt_is_Some_2 _ _ Hi) as [object Hobj]. rewrite Hobj.
  rewrite (Hkeep i object) by set_solver. cbn. apply IH; [|done].
  intros j x Hj. apply Hkeep. set_solver.
Qed.

Lemma filter_in_place_panics_once_shorter keep n k i s x :
  (n - i = k)%nat -> (i < n)%nat ->
  length (backing s) = n -> (len s < n)%nat ->
  backing s !! (n - 1)%nat = Some x -> keep x = false ->
  exists p, filter_in_place keep (seq i k) s = Panic p.
Proof.
  revert i s. induction k as [|k IH]; intros i s Hk Hi Hlen Hshort Hlast Hrej; [lia|].
  cbn. destruct (backing s !! i) as [object|] eqn:Hobj; [|eauto].
  destruct (keep object) eqn:Hkeep; cbn.
  - assert (i <> n - 1)%nat by (intros ->; congruence).
    apply IH; [lia|lia|done..].
  - destruct (remove_index s i) as [s1|p] eqn:Hrm; [|eauto].
    assert (Hwf : well_formed s) by (unfold well_formed; lia).
    destruct (remove_index_Ret _ _ _ Hwf Hrm) as (Hi1 & _ & Hlen1 & Hlen1' & _ & Htail).
    apply IH; [lia|lia|congruence|lia| |done].
    rewrite <- Hlast.
    replace (n - 1)%nat with ((len s - 1) + (n - len s))%nat by lia.
    by rewrite <- !lookup_drop, Htail.
Qed.

(** The loop panics as soon as the predicate rejects the last element and
    some element before it: by the time the last index is reached the slice
    is shorter than that index. *)
Lemma filter_in_place_panics keep (l : list FileMetadata) k i j x y :
  (length l - i = k)%nat -> (i <= j)%nat -> (j < length l - 1)%nat ->
  l !! j = Some y -> keep y = false ->
  l !! (length l - 1)%nat = Some x -> keep x = false ->
  exists p, filter_in_place keep (seq i k) (slice_of l) = Panic p.
Proof.
  revert i. induction k as [|k IH]; intros i Hk Hij Hj Hy Hrejy Hx Hrejx; [lia|].
  cbn. destruct (l !! i) as [object|] eqn:Hobj; [|eauto].
  destruct (keep object) eqn:Hkeep; cbn.
  - assert (i <> j) by (intros ->; congruence). apply IH; [lia|lia|done..].
  - destruct (remove_index (slice_of l) i) as [s1|p] eqn:Hrm; [|eauto].
    destruct (remove_index_Ret _ _ _ (slice_of_well_formed l) Hrm)
      as (Hi1 & _ & Hlen1 & Hlen1' & _ & Htail).
    cbn in *.
    eapply (filter_in_place_panics_once_shorter keep (length l));
      [lia|lia|done|lia| |exact Hrejx].
    rewrite <- Hx. rewrite <- (Nat.add_0_r (length l - 1)).
    by rewrite <- !lookup_drop, Htail.
Qed.

(** ** Listing *)

Lemma views_cons attrs rest :
  views (attrs :: rest) =
  if decide (FileName (view attrs) <> EmptyString)
  then view attrs :: views rest else views rest.
Proof. unfold views. by rewrite fmap_cons, filter_cons. Qed.

Lemma collect_result bucket todo fl result :
  collect bucket todo fl result =
  match strikes fl todo with
  | Some f => ([], Some (fmt_Errorf "Bucket(%q).Objects: %v" [bucket] (Transport f)))
  | None => ((result ++ views todo)%list, None)
  end.
Proof.
  revert fl result. induction todo as [|attrs rest IH]; intros fl result.
  - destruct fl as [[[|n] f]|]; cbn; try done; by rewrite ?app_nil_r.
  - assert (Hstep : forall result,
      ((if decide (FileName {| embedded := attrs |} <> EmptyString)
        then (result ++ [{| embedded := attrs |}])%list else result) ++ views rest)%list
      = (result ++ views (attrs :: rest))%list).
    { intros r. rewrite views_cons. unfold view.
      destruct (decide (FileName {| embedded := attrs |} <> EmptyString)); [|done].
      by rewrite <- app_assoc. }
    destruct fl as [[[|n] f]|]; cbn [collect]; [done| |].
    + rewrite IH. unfold strikes. cbn [length].
      destruct (decide (n <= length rest)%nat), (decide (S n <= S (length rest))%nat);
        try lia; [done|]. by rewrite Hstep.
    + rewrite IH. unfold strikes. by rewrite Hstep.
Qed.

Lemma views_have_leaf_names found : Forall (fun m => FileName m <> EmptyString) (views found).
Proof. unfold views. apply Forall_forall. intros m Hm. by apply list_elem_of_filter in Hm as [? _]. Qed.

Lemma FilesAtPath_run bucket path filter w :
  exists w',
    FilesAtPath bucket path filter w = (FilesAtPath_answer bucket path filter w, w') /\
    objects w' = objects w.
Proof.
  unfold FilesAtPath, FilesAtPath_answer, next_session, Objects.
  unfold storage_NewClient, bind, ret, raise, get_world, modify, record_call,
    set_sessions, set_objects. cbn.
  destruct (List.hd healthy (sessions w)) as [d c cl rf rd a l]; cbn.
  destruct d; cbn; [eauto|].
  rewrite collect_result. cbn.
  destruct (strikes l (enumerate (objects w) bucket path)); cbn; [eauto|].
  destruct filter as [|keep more]; cbn; [eauto|].
  destruct (filter_in_place keep _ _); cbn; eauto.
Qed.

(** C9.  The leaf name of a view is what follows the last slash of its key
    (the key is a prefix, empty or ending in a slash, followed by the leaf
    name, which holds no slash), and whatever [FilesAtPath] returns, with or
    without a filter, holds only views with a non-empty leaf name, all of
    them taken from what the store enumerated. *)
Theorem FileName_last_segment_and_no_empty_leaf :
  (forall m : FileMetadata,
     exists prefix,
       Name m = (prefix ++ FileName m)%string /\
       (prefix = EmptyString \/ strings_HasSuffix prefix slash = true) /\
       ~ has_slash (FileName m)) /\
  (forall bucket path filter w result err w',
     FilesAtPath bucket path filter w = (Ret (result, err), w') ->
     Forall (fun m => FileName m <> EmptyString) result /\
     result `sublist_of` (view <$> enumerate (objects w) bucket path)).
Proof.
  split.
  - intros m. rewrite FileName_leaf_of. apply leaf_of_is_last_segment.
  - intros bucket path filter w result err w' Hrun.
    destruct (FilesAtPath_run bucket path filter w) as (w1 & Heq & _).
    rewrite Heq in Hrun. apply (f_equal fst) in Hrun. cbn in Hrun.
    unfold FilesAtPath_answer in Hrun.
    assert (Hviews : views (enumerate (objects w) bucket path)
              `sublist_of` (view <$> enumerate (objects w) bucket path)).
    { unfold views. apply sublist_filter. }
    destruct (dial_fault (next_session w)).
    { injection Hrun as <- _. split; [constructor | apply sublist_nil_l]. }
    destruct (strikes _ _).
    { injection Hrun as <- _. split; [constructor | apply sublist_nil_l]. }
    destruct filter as [|keep more].
    { injection Hrun as <- _. split; [apply views_have_leaf_names | done]. }
    destruct (filter_in_place keep _ _) as [s|p] eqn:Hloop; [|done].
    injection Hrun as <- _.
    destruct (filter_in_place_Ret _ _ _ _ (slice_of_well_formed _) Hloop) as (_ & Hsub & _).
    rewrite elements_of_slice_of in Hsub. split.
    + apply Forall_forall. intros m Hm.
      pose proof (views_have_leaf_names (enumerate (objects w) bucket path)) as Hall.
      rewrite Forall_forall in Hall. apply Hall. by eapply elem_of_sublist.
    + by etrans.
Qed.

Lemma FilesAtPath_witness :
  Forall (fun m => FileName m <> EmptyString) [demo_view "p/a"; demo_view "p/b"; demo_view "p/c"].
Proof.
  refine (proj1 (proj2 FileName_last_segment_and_no_empty_leaf
                   "bkt" "p/" [] demo_world _ None _ _)).
  vm_compute. reflexivity.
Defined.

(** C1.  With three files listed and a predicate that rejects the first two,
    which are adjacent, [FilesAtPath] returns the second and the third: the
    second file is never shown to the predicate.  The subsequence of the
    unfiltered listing that satisfies the predicate is the third file
    alone. *)
Theorem FilesAtPath_filter_skips_after_removal :
  fst (FilesAtPath "bkt" "p/" [] demo_world)
    = Ret ([demo_view "p/a"; demo_view "p/b"; demo_view "p/c"], None) /\
  fst (FilesAtPath "bkt" "p/" [only "c"] demo_world)
    = Ret ([demo_view "p/b"; demo_view "p/c"], None) /\
  List.filter (only "c") [demo_view "p/a"; demo_view "p/b"; demo_view "p/c"]
    = [demo_view "p/c"].
Proof. repeat split; vm_compute; reflexivity. Qed.

(** ** The reference archive codec is lossless *)

Lemma read_unary_unary n rest : read_unary (unary n ++ rest) = Some (n, rest).
Proof. induction n as [|n IH]; cbn; [done|]. by rewrite IH. Qed.

Lemma read_chunk_chunk bs rest : read_chunk (chunk bs ++ rest) = Some (bs, rest).
Proof.
  unfold read_chunk, chunk. rewrite <- app_assoc, read_unary_unary.
  rewrite decide_True by (rewrite length_app; lia).
  by rewrite take_app_length, drop_app_length.
Qed.

Lemma ref_encode_length es : (length es < length (ref_encode es))%nat.
Proof. induction es as [|e es IH]; cbn; [lia|]. rewrite !length_app. lia. Qed.

Lemma ref_decode_entries_encode fuel es :
  (length es < fuel)%nat -> ref_decode_entries fuel (ref_encode es) = Some (stored <$> es).
Proof.
  revert fuel. induction es as [|[name content] es IH]; intros [|fuel] Hfuel;
    try (cbn in Hfuel; lia); [done|].
  cbn [ref_encode]. unfold ref_encode_entry. cbn [fst snd].
  rewrite <- app_comm_cons. cbn [ref_decode_entries].
  rewrite <- app_assoc, read_chunk_chunk, read_chunk_chunk.
  rewrite IH by (cbn in Hfuel; lia).
  by rewrite string_of_list_byte_of_string.
Qed.

Lemma ref_codec_lossless es : ref_decode (ref_encode es) = Some (stored <$> es).
Proof. apply ref_decode_entries_encode. pose proof (ref_encode_length es). lia. Qed.

(** ** Network import and archives, for any collaborators *)

Lemma add_headers_request r visit :
  add_headers (Some r) visit =
  Ret (Some {| Method := Method r; URL := URL r; Header := (Header r ++ visit)%list |}).
Proof.
  revert r. induction visit as [|[header value] later IH]; intros r; cbn.
  - rewrite app_nil_r. by destruct r.
  - rewrite IH. cbn. by rewrite <- app_assoc.
Qed.

Lemma add_headers_nil_request visit :
  visit <> [] -> add_headers None visit = Panic NilDereference.
Proof. destruct visit as [|[header value] later]; done. Qed.

Lemma Zip_entries_accepted zipWriter visit :
  Forall entry_ok visit ->
  exists zipWriter',
    Zip_entries zipWriter visit = Ret (zipWriter', None) /\
    all_entries zipWriter' = (all_entries zipWriter ++ visit)%list.
Proof.
  revert zipWriter. induction visit as [|[filename content] later IH]; intros zw Hok.
  { exists zw. by rewrite app_nil_r. }
  apply Forall_cons in Hok as [[Hlen Hdir] Hok]. cbn [fst snd] in Hlen, Hdir.
  cbn [Zip_entries]. unfold zip_Create.
  rewrite decide_False by lia.
  destruct (strings_HasSuffix filename slash) eqn:Hslash; cbn.
  - rewrite (Hdir eq_refl). cbn.
    destruct (IH {| finished := all_entries zw; current := Some (filename, []) |} Hok)
      as (zw' & -> & Hall).
    exists zw'. split; [done|]. rewrite Hall. unfold all_entries at 1. cbn.
    by rewrite <- app_assoc.
  - destruct (IH {| finished := all_entries zw; current := Some (filename, content) |} Hok)
      as (zw' & -> & Hall).
    exists zw'. split; [done|]. rewrite Hall. unfold all_entries at 1. cbn.
    by rewrite <- app_assoc.
Qed.

Lemma UnZip_files_stored visit result :
  UnZip_files (stored <$> visit) result =
  (foldl (fun m e => <[e.1 := e.2]> m) result visit, None).
Proof.
  revert result. induction visit as [|e later IH]; intros result; cbn; [done|].
  by rewrite IH.
Qed.

Lemma foldl_insert_list_to_map (visit : list zip_entry) (result : gmap string (list byte)) :
  NoDup visit.*1 ->
  foldl (fun m e => <[e.1 := e.2]> m) result visit = list_to_map visit ∪ result.
Proof.
  revert result. induction visit as [|[k v] later IH]; intros result Hnd; cbn.
  { by rewrite (left_id_L ∅ (∪)). }
  apply NoDup_cons in Hnd as [Hk Hnd]. rewrite IH by done.
  rewrite <- insert_union_l. apply symmetry, insert_union_r.
  by apply not_elem_of_list_to_map_1.
Qed.

Section Collaborator_facts.

Variable url_Parse : string -> option error.
Variable range : forall A : Type, gmap string A -> list (string * A).
Variable zip_encode : list zip_entry -> list byte.
Variable zip_decode : list byte -> option (list zip_File).

(** One [for ... range] visits every entry of the map once. *)
Hypothesis range_visits_all : forall A (m : gmap string A), range A m ≡ₚ map_to_list m.

(** Reading an archive the writer made gives back the entries written. *)
Hypothesis zip_lossless :
  forall es, Forall entry_ok es -> zip_decode (zip_encode es) = Some (stored <$> es).


(** C10, as the code has it.  When the URL does not parse and the headers
    hold at least one entry, [SaveNetworkFile] panics on the nil request
    before it looks at the error, and nothing has been sent or stored. *)
Theorem SaveNetworkFile_panics_on_nil_request targetUrl bucket key hs w e :
  url_Parse targetUrl = Some e ->
  hs <> ∅ ->
  SaveNetworkFile url_Parse range targetUrl bucket key (Some hs) w
    = (Panic NilDereference, w).
Proof.
  intros Hurl Hne. unfold SaveNetworkFile, http_NewRequest. rewrite Hurl.
  rewrite add_headers_nil_request; [done|].
  intros Hnil. apply Hne, map_to_list_empty_iff.
  apply Permutation_nil_r. rewrite <- Hnil. apply symmetry, range_visits_all.
Qed.

(** X26.  Without headers to add (a nil map or an empty one), a URL that
    does not parse is reported as the error of [http.NewRequest], unwrapped
    and with no bytes; nothing is sent or stored. *)
Lemma SaveNetworkFile_reports_bad_url targetUrl bucket key headers w e :
  url_Parse targetUrl = Some e ->
  headers = None \/ headers = Some ∅ ->
  SaveNetworkFile url_Parse range targetUrl bucket key headers w = (Ret ([], Some e), w).
Proof.
  intros Hurl Hh. unfold SaveNetworkFile, http_NewRequest. rewrite Hurl.
  destruct Hh as [->| ->]; [done|].
  assert (Hnil : range string ∅ = []).
  { apply Permutation_nil_r. rewrite range_visits_all. by rewrite map_to_list_empty. }
  by rewrite Hnil.
Qed.

(** C2, as the code has it.  For a map whose names fit 16 bits of length and
    whose names ending in a slash carry no content, [Zip] succeeds in
    whatever order the map is visited, and [UnZip] of its archive succeeds
    and gives back the map itself. *)
Theorem UnZip_Zip_gives_back_the_map (files : gmap string (list byte)) :
  map_Forall (fun name content => entry_ok (name, content)) files ->
  exists archive,
    Zip range zip_encode files = Ret (archive, None) /\
    UnZip zip_decode archive = (files, None).
Proof.
  intros Hok.
  assert (Hvisit : Forall entry_ok (range (list byte) files)).
  { apply Forall_forall. intros [name content] Hin.
    rewrite range_visits_all in Hin. apply elem_of_map_to_list in Hin.
    by apply (Hok name content). }
  destruct (Zip_entries_accepted zip_NewWriter _ Hvisit) as (zw & Hrun & Hall).
  cbn in Hall. exists (zip_encode (all_entries zw)). unfold Zip, UnZip.
  rewrite Hrun. split; [done|]. rewrite Hall, zip_lossless by done.
  rewrite UnZip_files_stored, foldl_insert_list_to_map.
  - rewrite (right_id_L ∅ (∪)).
    rewrite <- (list_to_map_to_list files) at 2. f_equal.
    apply list_to_map_proper; [|apply range_visits_all].
    rewrite range_visits_all. apply NoDup_fst_map_to_list.
  - rewrite range_visits_all. apply NoDup_fst_map_to_list.
Qed.

End Collaborator_facts.

(** ** Worked examples *)

Lemma ref_range_visits_all A (m : gmap string A) : ref_range A m ≡ₚ map_to_list m.
Proof. reflexivity. Qed.

Lemma ref_zip_lossless es :
  Forall entry_ok es -> ref_decode (ref_encode es) = Some (stored <$> es).
Proof. intros _. apply ref_codec_lossless. Qed.

Lemma PutFile_then_GetFile_witness :
  objects (snd (PutFile "bkt" "k" [x01] demo_world)) !! ("bkt", "k") = Some [x01] /\
  (forall k, k <> ("bkt", "k") ->
     objects (snd (PutFile "bkt" "k" [x01] demo_world)) !! k = objects demo_world !! k) /\
  forall w2,
    objects w2 !! ("bkt", "k")
      = objects (snd (PutFile "bkt" "k" [x01] demo_world)) !! ("bkt", "k") ->
    (forall got w3, GetFile "bkt" "k" w2 = (Ret (got, None), w3) -> got = [x01]) /\
    (can_read (next_session w2) ->
     exists w3, GetFile "bkt" "k" w2 = (Ret ([x01], None), w3)).
Proof.
  apply (PutFile_then_GetFile "bkt" "k" [x01] demo_world). reflexivity.
Defined.



Lemma SaveNetworkFile_panics_witness :
  SaveNetworkFile ref_url_Parse ref_range ":bad" "bkt" "k" (Some demo_headers) demo_world
    = (Panic NilDereference, demo_world).
Proof.
  apply (SaveNetworkFile_panics_on_nil_request ref_url_Parse ref_range ref_range_visits_all
           ":bad" "bkt" "k" demo_headers demo_world (errors_New "missing protocol scheme")).
  - reflexivity.
  - intros Hempty. apply (f_equal (fun m => m !! "Accept")) in Hempty.
    vm_compute in Hempty. discriminate Hempty.
Defined.

(** C10, as stated, fails on headers that are not nil but hold no entry:
    the loop body never runs, and the error of [http.NewRequest] is
    returned. *)
Lemma SaveNetworkFile_empty_headers_no_panic :
  (Some (∅ : gmap string string) <> None) /\
  ref_url_Parse ":bad" = Some (errors_New "missing protocol scheme") /\
  SaveNetworkFile ref_url_Parse ref_range ":bad" "bkt" "k" (Some ∅) demo_world
    = (Ret ([], Some (errors_New "missing protocol scheme")), demo_world).
Proof. split; [done|]. split; vm_compute; reflexivity. Qed.

Lemma UnZip_Zip_witness :
  exists archive,
    Zip ref_range ref_encode demo_files = Ret (archive, None) /\
    UnZip ref_decode archive = (demo_files, None).
Proof.
  apply (UnZip_Zip_gives_back_the_map ref_range ref_encode ref_decode
           ref_range_visits_all ref_zip_lossless demo_files).
  apply map_Forall_to_list. vm_compute.
  repeat constructor; cbn; first [discriminate | reflexivity | done].
Defined.

(** C2, as stated, fails on a name that ends in a slash and carries bytes:
    the writer makes it a directory and refuses the bytes, so [Zip] returns
    an error and no archive. *)
Lemma Zip_refuses_directory_content :
  Zip ref_range ref_encode (<["d/" := [x01]]> ∅)
    = Ret ([], Some (errors_New "zip: write to directory")) /\
  ~ exists archive,
      Zip ref_range ref_encode (<["d/" := [x01]]> ∅) = Ret (archive, None) /\
      UnZip ref_decode archive = (<["d/" := [x01]]> ∅, None).
Proof.
  assert (Hrun : Zip ref_range ref_encode (<["d/" := [x01]]> ∅)
                 = Ret ([], Some (errors_New "zip: write to directory")))
    by (vm_compute; reflexivity).
  split; [done|]. intros (archive & Hzip & _). rewrite Hrun in Hzip. discriminate Hzip.
Qed.

(** * Further properties *)

(** ** Blob transfer *)


(** X2.  [GetFile] never panics and never changes the store.  With a nil
    error the bytes it returns are the stored object, whole; with an error
    it returns no bytes at all. *)
Theorem GetFile_all_or_nothing bucket path w :
  exists data err w',
    GetFile bucket path w = (Ret (data, err), w') /\
    objects w' = objects w /\
    match err with
    | None => objects w !! (bucket, path) = Some data
    | Some _ => data = []
    end.
Proof.
  destruct (GetFile_returns bucket path w) as (data & err & w' & Hget).
  exists data, err, w'. split; [done|]. split; [by eapply GetFile_frame|].
  destruct err; [by eapply GetFile_failure | by eapply GetFile_success].
Qed.




(** What one [PutFile] sends out: a session opened under
    [context.Background], then at most the writer, under the timeout. *)
Lemma PutFile_calls bucket path data w :
  exists later,
    calls (snd (PutFile bucket path data w))
      = (calls w ++ CallNewClient context_Background :: later)%list /\
    Forall (fun c => call_deadline c = Some Timeout) later.
Proof.
  go_unfold. destruct (List.hd healthy (sessions w)) as [d c cl r rd a l]; cbn.
  destruct d; cbn.
  { exists []. split; [done|]. constructor. }
  exists [CallNewWriter (context_WithTimeout context_Background Timeout) bucket path].
  split; [|by repeat constructor].
  destruct c; cbn; [by rewrite <- app_assoc|].
  destruct cl; cbn; by rewrite <- app_assoc.
Qed.

(** X4.  [PutFile], [GetFile] and [FilesAtPath] open their session under
    [context.Background], and every call they send to the store afterwards
    carries a deadline: [Timeout], 60 seconds, for the writer and the
    reader, 30 seconds for the listing. *)
Theorem object_calls_carry_a_deadline bucket path data filter w :
  (exists later,
     calls (snd (PutFile bucket path data w))
       = (calls w ++ CallNewClient context_Background :: later)%list /\
     Forall (fun c => call_deadline c = Some Timeout) later) /\
  (exists later,
     calls (snd (GetFile bucket path w))
       = (calls w ++ CallNewClient context_Background :: later)%list /\
     Forall (fun c => call_deadline c = Some Timeout) later) /\
  (exists later,
     calls (snd (FilesAtPath bucket path filter w))
       = (calls w ++ CallNewClient context_Background :: later)%list /\
     Forall (fun c => call_deadline c = Some (time_Second * 30)%Z) later) /\
  Timeout = (60 * time_Second)%Z.
Proof.
  split; [apply PutFile_calls|]. split; [|split; [|reflexivity]].
  - go_unfold. destruct (List.hd healthy (sessions w)) as [d c cl r rd a l]; cbn.
    destruct d; cbn.
    { exists []. split; [done|]. constructor. }
    exists [CallNewReader (context_WithTimeout context_Background Timeout) bucket path].
    split; [|by repeat constructor].
    destruct r; cbn; [by rewrite <- app_assoc|].
    destruct (objects w !! (bucket, path)); cbn; [|by rewrite <- app_assoc].
    destruct rd; cbn; by rewrite <- app_assoc.
  - unfold FilesAtPath, Objects.
    unfold storage_NewClient, bind, ret, raise, get_world, modify, record_call,
      set_sessions, set_objects. cbn.
    destruct (List.hd healthy (sessions w)) as [d c cl rf rd a l]; cbn.
    destruct d; cbn.
    { exists []. split; [done|]. constructor. }
    exists [CallObjects (context_WithTimeout context_Background (time_Second * 30))
              bucket path].
    split; [|by repeat constructor].
    destruct (collect _ _ _ _) as [result [e|]]; cbn; [by rewrite <- app_assoc|].
    destruct filter as [|keep more]; cbn; [by rewrite <- app_assoc|].
    destruct (filter_in_place keep _ _); cbn; by rewrite <- app_assoc.
Qed.

(** ** Existence check *)

(** X5.  [Exists] never changes the store, whether it answers or panics. *)
Theorem Exists_leaves_the_store bucket path w :
  objects (snd (Exists bucket path w)) = objects w.
Proof.
  go_unfold. destruct (List.hd healthy (sessions w)) as [d c cl r rd a l]; cbn.
  destruct d; cbn; [done|]. destruct a; cbn; [done|].
  by destruct (objects w !! (bucket, path)).
Qed.

(** X6.  After a [PutFile] that returned nil, [Exists] on the same key
    answers [true] as soon as its session opens and its metadata request
    meets no fault, whatever was stored meanwhile under other keys. *)
Theorem PutFile_then_Exists bucket path data w w1 w2 :
  PutFile bucket path data w = (Ret None, w1) ->
  objects w2 !! (bucket, path) = objects w1 !! (bucket, path) ->
  dial_fault (next_session w2) = None ->
  attrs_fault (next_session w2) = None ->
  fst (Exists bucket path w2) = Ret true.
Proof.
  intros Hput Hsame. apply PutFile_success in Hput.
  rewrite Hput, lookup_insert_eq in Hsame. revert Hsame.
  unfold next_session. go_unfold.
  destruct (List.hd healthy (sessions w2)) as [d c cl r rd a l]; cbn.
  intros Hobj -> ->. cbn. by rewrite Hobj.
Qed.

Lemma PutFile_then_Exists_witness :
  fst (Exists "bkt" "k" (snd (PutFile "bkt" "k" [x01] demo_world))) = Ret true.
Proof.
  apply (PutFile_then_Exists "bkt" "k" [x01] demo_world
           (snd (PutFile "bkt" "k" [x01] demo_world))
           (snd (PutFile "bkt" "k" [x01] demo_world))); reflexivity.
Defined.

(** ** Transform helpers *)

Lemma GetFile_sessions bucket path w :
  sessions (snd (GetFile bucket path w)) = List.tl (sessions w).
Proof.
  go_unfold. destruct (List.hd healthy (sessions w)) as [d c cl rf rd a l]; cbn.
  destruct d; cbn; [done|]. destruct rf; cbn; [done|].
  destruct (objects w !! (bucket, path)); cbn; [|done]. by destruct rd.
Qed.

(** X7.  With a callback that only computes new bytes [f data] from the
    stored [data], a session that can read and a next one that can write,
    [ProcessAndUpdateFile] returns nil and leaves [f data] at the key and
    every other object as it was; a later [GetFile] that can read returns
    [f data]; and when [f] gives back [data] the store is unchanged. *)
Theorem ProcessAndUpdateFile_replaces_the_object bucket path f data w :
  objects w !! (bucket, path) = Some data ->
  can_read (next_session w) ->
  can_write (next_session (after_session w)) ->
  exists w',
    ProcessAndUpdateFile bucket path (pure_update f) w = (Ret None, w') /\
    objects w' = <[(bucket, path) := f data]> (objects w) /\
    (forall w2, objects w2 = objects w' -> can_read (next_session w2) ->
       exists w3, GetFile bucket path w2 = (Ret (f data, None), w3)) /\
    (f data = data -> objects w' = objects w).
Proof.
  intros Hobj Hread Hwrite.
  destruct (GetFile_healthy bucket path w data Hread Hobj) as (w1 & Hget).
  assert (Hwrite1 : can_write (next_session w1)).
  { pose proof (GetFile_sessions bucket path w) as Hs. rewrite Hget in Hs. cbn in Hs.
    revert Hwrite. unfold next_session, after_session. cbn. by rewrite Hs. }
  destruct (PutFile_healthy bucket path (f data) w1 Hwrite1) as (w' & Hput).
  exists w'. rewrite ProcessAndUpdateFile_unfold, Hget. unfold pure_update, ret.
  rewrite Hput. split; [done|].
  assert (Hfinal : objects w' = <[(bucket, path) := f data]> (objects w)).
  { rewrite (PutFile_success _ _ _ _ _ Hput). by rewrite (GetFile_frame _ _ _ _ _ Hget). }
  split; [done|]. split.
  - intros w2 Hsame Hr. apply GetFile_healthy; [done|].
    by rewrite Hsame, Hfinal, lookup_insert_eq.
  - intros Hid. rewrite Hfinal, Hid. by apply insert_id.
Qed.

Lemma ProcessAndUpdateFile_replaces_the_object_witness :
  exists w',
    ProcessAndUpdateFile "bkt" "p/a" (pure_update (fun file => file ++ [xff])%list) demo_world
      = (Ret None, w') /\
    objects w' = <[("bkt", "p/a") := [x01; xff]]> (objects demo_world) /\
    (forall w2, objects w2 = objects w' -> can_read (next_session w2) ->
       exists w3, GetFile "bkt" "p/a" w2 = (Ret ([x01; xff], None), w3)) /\
    ([x01; xff] = [x01] -> objects w' = objects demo_world).
Proof.
  refine (ProcessAndUpdateFile_replaces_the_object "bkt" "p/a"
            (fun file => file ++ [xff])%list [x01] demo_world _ _ _).
  - vm_compute. reflexivity.
  - repeat split.
  - repeat split.
Defined.

(** ** Leaf names *)

(** [strings.Split] cuts at every separator: the segments of [a/b] are those
    of [a] followed by those of [b]. *)
Lemma strings_Split_app a b :
  strings_Split (a ++ String slash b) slash
  = (strings_Split a slash ++ strings_Split b slash)%list.
Proof.
  induction a as [|c a IH].
  - reflexivity.
  - change (String c a ++ String slash b)%string with (String c (a ++ String slash b)).
    cbn [strings_Split]. rewrite IH.
    destruct (Ascii.eqb c slash); [done|].
    pose proof (strings_Split_nonempty a slash) as Hne.
    by destruct (strings_Split a slash).
Qed.

Lemma leaf_of_app a b : leaf_of (a ++ String slash b) = leaf_of b.
Proof.
  unfold leaf_of. rewrite strings_Split_app.
  pose proof (strings_Split_nonempty b slash) as Hne.
  destruct (strings_Split b slash) as [|seg segs _] using rev_ind; [done|].
  by rewrite app_assoc, !last_snoc.
Qed.

Lemma leaf_of_no_slash key : ~ has_slash key -> leaf_of key = key.
Proof. intros Hno. unfold leaf_of. by rewrite strings_Split_no_slash. Qed.

Lemma strings_HasSuffix_app key :
  strings_HasSuffix key slash = true -> exists dir, key = (dir ++ String slash "")%string.
Proof.
  induction key as [|c key IH]; [done|]. destruct key as [|c' key].
  - cbn. intros Hc. apply Ascii.eqb_eq in Hc as ->. by exists "".
  - intros Hs. destruct (IH Hs) as (dir & Hdir). exists (String c dir).
    change (String c dir ++ String slash "")%string with (String c (dir ++ String slash "")).
    by rewrite <- Hdir.
Qed.

(** X8.  [FileName] by cases on the key: a key that holds no slash is its
    own leaf name, and a key [dir/leaf] whose [leaf] holds no slash has
    leaf name [leaf], however many slashes [dir] holds. *)
Theorem FileName_of_a_path (m : FileMetadata) (dir leaf : string) :
  ~ has_slash leaf ->
  (Name m = leaf -> FileName m = leaf) /\
  (Name m = (dir ++ String slash leaf)%string -> FileName m = leaf).
Proof.
  intros Hno. rewrite FileName_leaf_of. split; intros ->.
  - by apply leaf_of_no_slash.
  - rewrite leaf_of_app. by apply leaf_of_no_slash.
Qed.

Lemma FileName_of_a_path_witness :
  FileName (demo_view "a/b/file.json") = "file.json".
Proof.
  refine (proj2 (FileName_of_a_path (demo_view "a/b/file.json") "a/b" "file.json" _) _).
  - unfold has_slash. cbn. rewrite !not_elem_of_cons.
    repeat split; try discriminate. apply not_elem_of_nil.
  - reflexivity.
Defined.

(** X9.  The leaf name is empty exactly for the empty key and for the keys
    that end in a slash: these, and not only the marker of the listed prefix
    itself, are the objects [FilesAtPath] leaves out. *)
Theorem FileName_empty_iff_trailing_slash (m : FileMetadata) :
  FileName m = EmptyString <->
  Name m = EmptyString \/ strings_HasSuffix (Name m) slash = true.
Proof.
  rewrite FileName_leaf_of. split.
  - intros Hleaf. destruct (leaf_of_is_last_segment (Name m)) as (prefix & Hkey & Hprefix & _).
    rewrite Hleaf in Hkey.
    assert (Hp : Name m = prefix).
    { rewrite Hkey. clear. induction prefix as [|c p IH]; [done|].
      change (String c p ++ "")%string with (String c (p ++ "")). by rewrite IH. }
    rewrite Hp. exact Hprefix.
  - intros [-> | Hs]; [done|].
    destruct (strings_HasSuffix_app _ Hs) as (dir & ->). by rewrite leaf_of_app.
Qed.

(** ** Listing *)

(** X10.  The enumeration loop of [FilesAtPath] ends: with [n] objects to
    come, any fuel above [n] lets the loop over [it.Next()] finish, with the
    views collected or with the wrapped fault of the iterator. *)
Theorem listing_loop_ends fuel bucket (it : ObjectIterator) result :
  (length (pending it) < fuel)%nat ->
  listing_loop fuel bucket it result
    = Some (collect bucket (pending it) (it_fault it) result).
Proof.
  revert it result. induction fuel as [|fuel IH]; intros [todo fl] result Hfuel; [lia|].
  cbn in Hfuel. cbn [listing_loop]. unfold Next. cbn [pending it_fault].
  destruct fl as [[[|n] f]|]; [by destruct todo| |].
  - destruct todo as [|attrs rest]; [done|]. cbn in Hfuel.
    rewrite IH by (cbn; lia). done.
  - destruct todo as [|attrs rest]; [done|]. cbn in Hfuel.
    rewrite IH by (cbn; lia). done.
Qed.

Lemma listing_loop_ends_witness :
  listing_loop 5 "bkt" {| pending := enumerate demo_objects "bkt" "p/"; it_fault := None |} []
    = Some (collect "bkt" (enumerate demo_objects "bkt" "p/") None []).
Proof.
  apply (listing_loop_ends 5 "bkt"
           {| pending := enumerate demo_objects "bkt" "p/"; it_fault := None |} []).
  vm_compute. lia.
Defined.

Lemma elem_of_enumerate o bucket prefix a :
  a ∈ enumerate o bucket prefix <->
  exists content,
    o !! (bucket, Name a) = Some content /\
    String.prefix prefix (Name a) = true /\
    a = attrs_of bucket (Name a) content.
Proof.
  unfold enumerate. rewrite merge_sort_Permutation, list_elem_of_omap. split.
  - intros ([[b k] content] & Hin & Hf). apply elem_of_map_to_list in Hin.
    destruct (decide (b = bucket)) as [->|]; [|done].
    destruct (String.prefix prefix k) eqn:Hp; [|done].
    injection Hf as <-. cbn. by exists content.
  - intros (content & Hobj & Hp & Ha). exists ((bucket, Name a), content).
    split; [by apply elem_of_map_to_list|].
    rewrite decide_True by done. rewrite Hp. by rewrite Ha.
Qed.

Lemma NoDup_omap {A B} (f : A -> option B) (l : list A) :
  (forall x x' y, x ∈ l -> x' ∈ l -> f x = Some y -> f x' = Some y -> x = x') ->
  NoDup l -> NoDup (omap f l).
Proof.
  induction l as [|x l IH]; intros Hinj Hnd; cbn; [constructor|].
  apply NoDup_cons in Hnd as [Hx Hnd].
  assert (Hrest : NoDup (omap f l)).
  { apply IH; [|done]. intros a a' y Ha Ha'. apply Hinj; by apply list_elem_of_further. }
  destruct (f x) as [y|] eqn:Hfx; [|done].
  apply NoDup_cons. split; [|done].
  rewrite list_elem_of_omap. intros (x' & Hx' & Hfx').
  assert (x = x') as ->; [|done].
  apply (Hinj x x' y); [apply list_elem_of_here|by apply list_elem_of_further|done..].
Qed.

Lemma NoDup_enumerate o bucket prefix : NoDup (enumerate o bucket prefix).
Proof.
  unfold enumerate. rewrite merge_sort_Permutation. apply NoDup_omap.
  - intros [[b k] c] [[b' k'] c'] y Hin Hin'.
    apply elem_of_map_to_list in Hin, Hin'.
    destruct (decide (b = bucket)) as [->|]; [|done].
    destruct (decide (b' = bucket)) as [->|]; [|done].
    destruct (String.prefix prefix k); [|done].
    destruct (String.prefix prefix k'); [|done].
    intros [= <-] [= ->]. congruence.
  - apply NoDup_map_to_list.
Qed.

Lemma elem_of_views m found :
  m ∈ views found <-> FileName m <> EmptyString /\ embedded m ∈ found.
Proof.
  unfold views. rewrite list_elem_of_filter, list_elem_of_fmap. split.
  - intros (Hleaf & a & -> & Ha). done.
  - intros (Hleaf & Ha). split; [done|]. exists (embedded m). by destruct m.
Qed.

Lemma NoDup_views found : NoDup found -> NoDup (views found).
Proof.
  intros Hnd. unfold views. apply NoDup_filter, NoDup_fmap_2; [|done].
  intros a b. unfold view. congruence.
Qed.

(** What a call with a filter does, from what the call without one returns:
    the loop runs over the unfiltered listing. *)
Lemma FilesAtPath_filter_unfold bucket path keep more w :
  fst (FilesAtPath bucket path (keep :: more) w) =
  match fst (FilesAtPath bucket path [] w) with
  | Ret (all, None) =>
      match filter_in_place keep (seq 0 (length all)) (slice_of all) with
      | Ret s => Ret (elements_of s, None)
      | Panic p => Panic p
      end
  | other => other
  end.
Proof.
  destruct (FilesAtPath_run bucket path (keep :: more) w) as (w1 & -> & _).
  destruct (FilesAtPath_run bucket path [] w) as (w2 & -> & _).
  unfold FilesAtPath_answer. cbn.
  destruct (dial_fault (next_session w)); [done|].
  by destruct (strikes _ _).
Qed.

Lemma FilesAtPath_result_sublist bucket path filter w result err :
  fst (FilesAtPath bucket path filter w) = Ret (result, err) ->
  result `sublist_of` views (enumerate (objects w) bucket path).
Proof.
  destruct (FilesAtPath_run bucket path filter w) as (w1 & -> & _).
  unfold FilesAtPath_answer. cbn.
  destruct (dial_fault (next_session w)).
  { intros [= <- _]. apply sublist_nil_l. }
  destruct (strikes _ _).
  { intros [= <- _]. apply sublist_nil_l. }
  destruct filter as [|keep more].
  { by intros [= <- _]. }
  destruct (filter_in_place keep _ _) as [s|p] eqn:Hloop; [|done].
  intros [= <- _].
  destruct (filter_in_place_Ret _ _ _ _ (slice_of_well_formed _) Hloop) as (_ & Hsub & _).
  by rewrite elements_of_slice_of in Hsub.
Qed.

(** X11.  On a session that opens and enumerates without a fault, the call
    without a filter returns, each once, exactly the views of the objects of
    the bucket whose key starts with the prefix and whose leaf name is not
    empty, with the size of what is stored. *)
Theorem FilesAtPath_lists_exactly bucket path w :
  dial_fault (next_session w) = None ->
  list_fault (next_session w) = None ->
  exists result,
    fst (FilesAtPath bucket path [] w) = Ret (result, None) /\
    NoDup result /\
    forall m : FileMetadata,
      m ∈ result <->
      exists content,
        objects w !! (bucket, Name m) = Some content /\
        String.prefix path (Name m) = true /\
        FileName m <> EmptyString /\
        embedded m = attrs_of bucket (Name m) content.
Proof.
  intros Hdial Hlist. exists (views (enumerate (objects w) bucket path)).
  destruct (FilesAtPath_run bucket path [] w) as (w1 & -> & _).
  unfold FilesAtPath_answer. rewrite Hdial, Hlist. cbn. split; [done|].
  split; [apply NoDup_views, NoDup_enumerate|].
  intros m. rewrite elem_of_views, elem_of_enumerate. split.
  - intros (Hleaf & content & Hobj & Hprefix & Hattrs). by exists content.
  - intros (content & Hobj & Hprefix & Hleaf & Hattrs). split; [done|]. by exists content.
Qed.

Lemma FilesAtPath_lists_exactly_witness :
  exists result,
    fst (FilesAtPath "bkt" "p/" [] demo_world) = Ret (result, None) /\
    NoDup result /\
    forall m : FileMetadata,
      m ∈ result <->
      exists content,
        objects demo_world !! ("bkt", Name m) = Some content /\
        String.prefix "p/" (Name m) = true /\
        FileName m <> EmptyString /\
        embedded m = attrs_of "bkt" (Name m) content.
Proof. apply (FilesAtPath_lists_exactly "bkt" "p/" demo_world); reflexivity. Defined.

(** X12.  [FilesAtPath] never changes the store, and with an error it
    returns no view at all: a fault in the middle of the enumeration
    discards the views collected so far.  The error wraps the fault of
    [storage.NewClient] or of the iterator. *)
Theorem FilesAtPath_error_gives_no_views bucket path filter w :
  objects (snd (FilesAtPath bucket path filter w)) = objects w /\
  forall result e,
    fst (FilesAtPath bucket path filter w) = Ret (result, Some e) ->
    result = [] /\
    exists f,
      e = fmt_Errorf "storage.NewClient: %v" [] (Transport f) \/
      e = fmt_Errorf "Bucket(%q).Objects: %v" [bucket] (Transport f).
Proof.
  destruct (FilesAtPath_run bucket path filter w) as (w1 & -> & Hframe).
  split; [done|]. cbn. unfold FilesAtPath_answer.
  destruct (dial_fault (next_session w)) as [f|].
  { intros result e [= <- <-]. eauto. }
  destruct (strikes _ _) as [f|].
  { intros result e [= <- <-]. eauto. }
  destruct filter as [|keep more]; [done|].
  by destruct (filter_in_place keep _ _).
Qed.

(** X13.  Every view [FilesAtPath] returns describes an object of the
    bucket that is in the store, under the prefix and with its size, and
    [Get] on that view returns the content of that object whenever the
    object is still there and the session can read. *)
Theorem listed_view_can_be_fetched bucket path filter w result err (m : FileMetadata) :
  fst (FilesAtPath bucket path filter w) = Ret (result, err) ->
  m ∈ result ->
  exists content,
    objects w !! (bucket, Name m) = Some content /\
    Bucket m = bucket /\
    String.prefix path (Name m) = true /\
    Size m = Z.of_nat (length content) /\
    forall w2,
      objects w2 !! (bucket, Name m) = Some content ->
      can_read (next_session w2) ->
      exists w3, FileMetadata_Get m w2 = (Ret (content, None), w3).
Proof.
  intros Hrun Hm. apply FilesAtPath_result_sublist in Hrun.
  assert (Hin : m ∈ views (enumerate (objects w) bucket path)).
  { by eapply elem_of_sublist. }
  apply elem_of_views in Hin as [_ Hin].
  apply elem_of_enumerate in Hin as (content & Hobj & Hprefix & Hattrs).
  exists content. destruct m as [[b key size]]. cbn in *.
  unfold attrs_of in Hattrs. injection Hattrs as -> ->.
  repeat (split; [done|]).
  intros w2 Hobj2 Hread. unfold FileMetadata_Get. cbn. by apply GetFile_healthy.
Qed.

Lemma listed_view_can_be_fetched_witness :
  exists content,
    objects demo_world !! ("bkt", "p/b") = Some content /\
    "bkt" = "bkt" /\
    String.prefix "p/" "p/b" = true /\
    1%Z = Z.of_nat (length content) /\
    forall w2,
      objects w2 !! ("bkt", "p/b") = Some content ->
      can_read (next_session w2) ->
      exists w3, FileMetadata_Get (demo_view "p/b") w2 = (Ret (content, None), w3).
Proof.
  apply (listed_view_can_be_fetched "bkt" "p/" [] demo_world
           [demo_view "p/a"; demo_view "p/b"; demo_view "p/c"] None (demo_view "p/b")).
  - vm_compute. reflexivity.
  - apply list_elem_of_further, list_elem_of_here.
Defined.

(** ** The filter loop, case by case *)

(** X14.  When a call with a filter returns, the call without one returns
    too, and what the filter kept is a subsequence of that listing that holds
    every view the predicate accepts, in order: the loop may keep views the
    predicate rejects, never lose one it accepts.  Only the first filter is
    consulted. *)
Theorem FilesAtPath_filter_keeps_the_accepted bucket path keep more w result :
  fst (FilesAtPath bucket path (keep :: more) w) = Ret (result, None) ->
  exists all,
    fst (FilesAtPath bucket path [] w) = Ret (all, None) /\
    result `sublist_of` all /\
    List.filter keep result = List.filter keep all.
Proof.
  rewrite FilesAtPath_filter_unfold.
  destruct (fst (FilesAtPath bucket path [] w)) as [[all [e|]]|p]; try done.
  destruct (filter_in_place keep _ _) as [s|p] eqn:Hloop; [|done].
  intros [= <-]. exists all. split; [done|].
  destruct (filter_in_place_Ret _ _ _ _ (slice_of_well_formed _) Hloop) as (_ & Hsub & Hfil).
  by rewrite elements_of_slice_of in Hsub, Hfil.
Qed.

Lemma FilesAtPath_filter_keeps_the_accepted_witness :
  exists all,
    fst (FilesAtPath "bkt" "p/" [] demo_world) = Ret (all, None) /\
    [demo_view "p/b"; demo_view "p/c"] `sublist_of` all /\
    List.filter (only "c") [demo_view "p/b"; demo_view "p/c"] = List.filter (only "c") all.
Proof.
  apply (FilesAtPath_filter_keeps_the_accepted "bkt" "p/" (only "c") [] demo_world).
  vm_compute. reflexivity.
Defined.

(** Indices in the stale end of the backing array, which holds copies of an
    accepted last element, leave the slice alone. *)
Lemma filter_in_place_stale keep (z : FileMetadata) pre k s :
  keep z = true ->
  backing s = (pre ++ replicate k z)%list ->
  filter_in_place keep (seq (length pre) k) s = Ret s.
Proof.
  intros Hz Hb. apply filter_in_place_accepts_all.
  - intros i object Hi Hobj. apply elem_of_seq in Hi.
    rewrite Hb, lookup_app_r in Hobj by lia.
    apply lookup_replicate in Hobj as [-> _]. done.
  - apply Forall_forall. intros i Hi. apply elem_of_seq in Hi.
    rewrite Hb, length_app, length_replicate. lia.
Qed.

(** The state of the loop at index [length pre]: [pre] is final, [todo] is
    still to be examined and ends in the accepted [z], and [k] removals have
    left [k] copies of [z] beyond the length. *)
Lemma filter_in_place_scan keep (z : FileMetadata) fuel :
  keep z = true ->
  forall todo pre k s,
    (length todo <= fuel)%nat ->
    (todo <> [] -> last todo = Some z) ->
    backing s = (pre ++ todo ++ replicate k z)%list ->
    len s = (length pre + length todo)%nat ->
    exists s',
      filter_in_place keep (seq (length pre) (length todo + k)) s = Ret s' /\
      elements_of s' = (pre ++ lets_next_through keep todo)%list.
Proof.
  intros Hz. induction fuel as [|fuel IH]; intros todo pre k s Hfuel Hlast Hb Hlen.
  { destruct todo; [|cbn in Hfuel; lia]. exists s. cbn in *.
    split; [by apply (filter_in_place_stale keep z)|].
    unfold elements_of. by rewrite Hlen, Hb, Nat.add_0_r, app_nil_r, take_app_length. }
  destruct todo as [|x rest].
  { exists s. cbn in *. split; [by apply (filter_in_place_stale keep z)|].
    unfold elements_of. by rewrite Hlen, Hb, Nat.add_0_r, app_nil_r, take_app_length. }
  specialize (Hlast ltac:(done)).
  cbn in Hfuel, Hlen. cbn [length Nat.add seq filter_in_place].
  assert (Hat : backing s !! length pre = Some x).
  { rewrite Hb. cbn. by rewrite list_lookup_middle. }
  rewrite Hat. destruct (keep x) eqn:Hx; cbn [negb].
  - destruct (IH rest (pre ++ [x])%list k s) as (s' & Hrun & Hel).
    + lia.
    + intros Hne. destruct rest; [done|]. exact Hlast.
    + by rewrite <- app_assoc.
    + rewrite length_app. cbn. lia.
    + exists s'. rewrite length_app, Nat.add_1_r in Hrun. split; [done|].
      cbn [lets_next_through]. by rewrite Hx, Hel, <- app_assoc.
  - destruct rest as [|y rest'].
    { injection Hlast as ->. congruence. }
    assert (Hlast' : last (y :: rest') = Some z) by exact Hlast.
    apply last_Some in Hlast' as (init & Hinit).
    unfold remove_index. rewrite decide_True by (cbn in *; lia).
    set (s1 := {| backing := _; len := _ |}).
    assert (Hb1 : backing s1 = ((pre ++ [y]) ++ rest' ++ replicate (S k) z)%list).
    { unfold s1. cbn [backing]. rewrite Hlen.
      replace (take (length pre) (backing s)) with pre
        by (by rewrite Hb, take_app_length).
      replace (drop (length pre + 1) (backing s)) with ((y :: rest') ++ replicate k z)%list.
      2:{ rewrite Hb. change (pre ++ (x :: y :: rest') ++ replicate k z)%list
            with (pre ++ [x] ++ (y :: rest') ++ replicate k z)%list.
          rewrite app_assoc. rewrite drop_app_length'; [done|].
          rewrite length_app. cbn. lia. }
      replace (length pre + S (length (y :: rest')) - (length pre + 1))%nat
        with (length (y :: rest')) by (cbn; lia).
      rewrite take_app_length.
      replace (drop (length pre + S (length (y :: rest')) - 1) (backing s))
        with (z :: replicate k z).
      2:{ rewrite Hb, Hinit.
          replace (pre ++ (x :: init ++ [z]) ++ replicate k z)%list
            with ((pre ++ x :: init) ++ z :: replicate k z)%list
            by (rewrite <- !app_assoc; cbn; by rewrite <- !app_assoc).
          rewrite drop_app_length'; [done|].
          rewrite !length_app. cbn. lia. }
      cbn. by rewrite <- !app_assoc. }
    destruct (IH rest' (pre ++ [y])%list (S k) s1) as (s' & Hrun & Hel).
    + cbn in Hfuel. lia.
    + intros Hne. destruct rest'; [done|]. exact Hlast.
    + exact Hb1.
    + unfold s1. cbn [len]. rewrite Hlen, length_app. cbn. lia.
    + exists s'. rewrite length_app, Nat.add_1_r in Hrun.
      replace (length (y :: rest') + k)%nat with (length rest' + S k)%nat by (cbn; lia).
      split; [done|]. cbn [lets_next_through]. by rewrite Hx, Hel, <- app_assoc.
Qed.

(** X15.  When the predicate accepts the last view of the listing, the call
    with a filter returns, and returns the listing with each rejected view
    it examined taken out and the view after it let through unexamined. *)
Theorem FilesAtPath_filter_lets_next_through bucket path keep more w all z :
  fst (FilesAtPath bucket path [] w) = Ret (all, None) ->
  last all = Some z ->
  keep z = true ->
  fst (FilesAtPath bucket path (keep :: more) w)
    = Ret (lets_next_through keep all, None).
Proof.
  intros Hall Hlast Hz. rewrite FilesAtPath_filter_unfold, Hall.
  destruct (filter_in_place_scan keep z (length all) Hz all [] 0 (slice_of all))
    as (s & Hrun & Hel); [done|done|cbn; by rewrite app_nil_r|done|].
  cbn in Hrun. rewrite Nat.add_0_r in Hrun. by rewrite Hrun, Hel.
Qed.

Lemma FilesAtPath_filter_lets_next_through_witness :
  fst (FilesAtPath "bkt" "p/" [only "c"] demo_world)
    = Ret (lets_next_through (only "c")
             [demo_view "p/a"; demo_view "p/b"; demo_view "p/c"], None).
Proof.
  apply (FilesAtPath_filter_lets_next_through "bkt" "p/" (only "c") [] demo_world
           [demo_view "p/a"; demo_view "p/b"; demo_view "p/c"] (demo_view "p/c")).
  - vm_compute. reflexivity.
  - reflexivity.
  - vm_compute. reflexivity.
Defined.

(** Indices whose elements the predicate accepts leave the slice alone. *)
Lemma filter_in_place_skip_accepted keep first later s :
  (forall i, i ∈ first -> exists object, backing s !! i = Some object /\ keep object = true) ->
  filter_in_place keep (first ++ later) s = filter_in_place keep later s.
Proof.
  induction first as [|i first IH]; intros Hacc; [done|].
  cbn. destruct (Hacc i) as (object & -> & ->); [apply list_elem_of_here|].
  cbn. apply IH. intros j Hj. apply Hacc. by apply list_elem_of_further.
Qed.

(** With one rejected element the loop is right: the elements that move
    down are all accepted, and so is the copy left at the old last place. *)
Lemma filter_in_place_one_rejection keep (before after : list FileMetadata) x :
  Forall (fun m => keep m = true) before ->
  keep x = false ->
  Forall (fun m => keep m = true) after ->
  exists s,
    filter_in_place keep (seq 0 (length (before ++ x :: after)))
      (slice_of (before ++ x :: after)) = Ret s /\
    elements_of s = (before ++ after)%list.
Proof.
  intros Hbefore Hx Hafter. set (l := (before ++ x :: after)%list).
  assert (Hlen : length l = (length before + S (length after))%nat).
  { unfold l. rewrite length_app. done. }
  rewrite Hlen, seq_app. cbn [seq]. rewrite Nat.add_0_l.
  rewrite filter_in_place_skip_accepted.
  2:{ intros i Hi. apply elem_of_seq in Hi. cbn.
      destruct (lookup_lt_is_Some_2 before i) as [m Hm]; [lia|].
      exists m. split.
      - unfold l. by rewrite lookup_app_l by lia.
      - rewrite Forall_forall in Hbefore. apply Hbefore. by eapply list_elem_of_lookup_2. }
  cbn [filter_in_place].
  assert (Hat : backing (slice_of l) !! length before = Some x).
  { cbn. unfold l. by rewrite list_lookup_middle. }
  rewrite Hat, Hx. cbn [negb].
  destruct (remove_index (slice_of l) (length before)) as [s1|p] eqn:Hrm.
  2:{ unfold remove_index in Hrm. cbn in Hrm. rewrite decide_True in Hrm by lia. done. }
  destruct (remove_index_Ret _ _ _ (slice_of_well_formed l) Hrm)
    as (_ & Hwf1 & Hlen1 & Hlen1' & Hel & Htail).
  cbn in Hlen1, Hlen1', Htail. rewrite elements_of_slice_of in Hel.
  assert (Hdel : delete (length before) l = (before ++ after)%list).
  { unfold l. rewrite delete_middle. done. }
  rewrite Hdel in Hel.
  assert (Hall : Forall (fun m => keep m = true) (before ++ after)).
  { by apply Forall_app. }
  exists s1. split; [|done].
  apply filter_in_place_accepts_all.
  - intros j object Hj Hobj. apply elem_of_seq in Hj.
    rewrite Forall_forall in Hall, Hafter.
    destruct (decide (j < length l - 1)%nat) as [Hlt|Hge].
    + apply Hall. rewrite <- Hel. unfold elements_of.
      apply (list_elem_of_lookup_2 _ j). rewrite lookup_take_lt by lia. done.
    + assert (j = length l - 1)%nat as -> by lia.
      apply Hafter.
      assert (Hsame : backing s1 !! (length l - 1)%nat = l !! (length l - 1)%nat).
      { rewrite <- (Nat.add_0_r (length l - 1)). by rewrite <- !lookup_drop, Htail. }
      rewrite Hsame in Hobj. unfold l in Hobj.
      rewrite lookup_app_r in Hobj by (rewrite length_app; cbn; lia).
      rewrite length_app in Hobj. cbn in Hobj.
      destruct (length before + S (length after) - 1 - length before)%nat as [|n] eqn:Hn;
        [lia|]. cbn in Hobj. by eapply list_elem_of_lookup_2.
  - apply Forall_forall. intros j Hj. apply elem_of_seq in Hj. lia.
Qed.

Lemma filter_accepts_all {A} (keep : A -> bool) (l : list A) :
  Forall (fun m => keep m = true) l -> List.filter keep l = l.
Proof.
  induction 1 as [|m l Hm _ IH]; [done|]. cbn. by rewrite Hm, IH.
Qed.

(** X16.  When the predicate rejects at most one of the listed views, the
    call with a filter returns exactly the views the predicate accepts, in
    the order of the listing. *)
Theorem FilesAtPath_filter_right_up_to_one_rejection bucket path keep more w all :
  fst (FilesAtPath bucket path [] w) = Ret (all, None) ->
  (length (List.filter (fun m => negb (keep m)) all) <= 1)%nat ->
  fst (FilesAtPath bucket path (keep :: more) w) = Ret (List.filter keep all, None).
Proof.
  intros Hall Hone. rewrite FilesAtPath_filter_unfold, Hall.
  assert (Hcases : Forall (fun m => keep m = true) all \/
            exists before x after, all = (before ++ x :: after)%list /\
              Forall (fun m => keep m = true) before /\ keep x = false /\
              Forall (fun m => keep m = true) after).
  { clear Hall. induction all as [|m all IH]; [left; constructor|].
    cbn in Hone. destruct (keep m) eqn:Hm; cbn in Hone.
    - destruct (IH Hone) as [Hacc|(before & x & after & -> & Hb & Hx & Ha)].
      + left. by constructor.
      + right. exists (m :: before), x, after. repeat split; try done. by constructor.
    - right. exists [], m, all. repeat split; try done.
      apply Forall_forall. intros a Ha. destruct (keep a) eqn:Hka; [done|].
      assert (Hin : a ∈ List.filter (fun m => negb (keep m)) all).
      { apply list_elem_of_In, filter_In. split; [by apply list_elem_of_In|]. by rewrite Hka. }
      destruct (List.filter (fun m => negb (keep m)) all); [by apply elem_of_nil in Hin|].
      cbn in Hone. lia. }
  destruct Hcases as [Hacc|(before & x & after & -> & Hb & Hx & Ha)].
  - rewrite filter_in_place_accepts_all.
    + by rewrite elements_of_slice_of, filter_accepts_all.
    + intros i object _ Hobj. rewrite Forall_forall in Hacc. apply Hacc.
      by eapply list_elem_of_lookup_2.
    + apply Forall_forall. intros i Hi. apply elem_of_seq in Hi. cbn. lia.
  - destruct (filter_in_place_one_rejection keep before after x Hb Hx Ha) as (s & -> & ->).
    rewrite List.filter_app. cbn. rewrite Hx.
    by rewrite !filter_accepts_all.
Qed.

Lemma FilesAtPath_filter_right_up_to_one_rejection_witness :
  fst (FilesAtPath "bkt" "p/" [fun m => negb (only "b" m)] demo_world)
    = Ret ([demo_view "p/a"; demo_view "p/c"], None).
Proof.
  apply (FilesAtPath_filter_right_up_to_one_rejection "bkt" "p/"
           (fun m => negb (only "b" m)) [] demo_world
           [demo_view "p/a"; demo_view "p/b"; demo_view "p/c"]).
  - vm_compute. reflexivity.
  - vm_compute. lia.
Defined.

(** X17.  When the predicate rejects the last view of the listing and some
    view before it, the call with a filter panics: the slice has shrunk by
    the time the loop reaches the last index, and [result[i+1:]] is out of
    range. *)
Theorem FilesAtPath_filter_panics bucket path keep more w all j y x :
  fst (FilesAtPath bucket path [] w) = Ret (all, None) ->
  (j < length all - 1)%nat ->
  all !! j = Some y -> keep y = false ->
  all !! (length all - 1)%nat = Some x -> keep x = false ->
  exists p, fst (FilesAtPath bucket path (keep :: more) w) = Panic p.
Proof.
  intros Hall Hj Hy Hrejy Hx Hrejx. rewrite FilesAtPath_filter_unfold, Hall.
  destruct (filter_in_place_panics keep all (length all) 0 j x y) as (p & ->);
    [lia|lia|done..|]. by exists p.
Qed.

Lemma FilesAtPath_filter_panics_witness :
  exists p, fst (FilesAtPath "bkt" "p/" [only "b"] demo_world) = Panic p.
Proof.
  apply (FilesAtPath_filter_panics "bkt" "p/" (only "b") [] demo_world
           [demo_view "p/a"; demo_view "p/b"; demo_view "p/c"] 0
           (demo_view "p/a") (demo_view "p/c")).
  - vm_compute. reflexivity.
  - cbn. lia.
  - reflexivity.
  - vm_compute. reflexivity.
  - reflexivity.
  - vm_compute. reflexivity.
Defined.

(** ** Network import and archives *)

Lemma Zip_entries_returns zipWriter visit :
  exists zipWriter' err, Zip_entries zipWriter visit = Ret (zipWriter', err).
Proof.
  revert zipWriter. induction visit as [|[filename content] later IH]; intros zw.
  { by exists zw, None. }
  cbn [Zip_entries]. unfold zip_Create.
  destruct (decide (uint16max < Z.of_nat (String.length filename))%Z); [eauto|].
  destruct (strings_HasSuffix filename slash); cbn.
  - destruct content; cbn; [apply IH|eauto].
  - apply IH.
Qed.

Lemma Zip_entries_None_inv zipWriter visit zipWriter' :
  Zip_entries zipWriter visit = Ret (zipWriter', None) -> Forall entry_ok visit.
Proof.
  revert zipWriter. induction visit as [|[filename content] later IH]; intros zw.
  { constructor. }
  cbn [Zip_entries]. unfold zip_Create.
  destruct (decide (uint16max < Z.of_nat (String.length filename))%Z) as [|Hlen]; [done|].
  destruct (strings_HasSuffix filename slash) eqn:Hslash; cbn.
  - destruct content; cbn; [|done]. intros Hrun. constructor; [|by eapply IH].
    split; cbn; [lia|done].
  - intros Hrun. constructor; [|by eapply IH].
    split; cbn; [lia|]. by rewrite Hslash.
Qed.

(** Writing the entries into the map one after the other: a later entry
    replaces an earlier one of the same name. *)
Lemma foldl_insert_reverse (visit : list zip_entry) (result : gmap string (list byte)) :
  foldl (fun m e => <[e.1 := e.2]> m) result visit = list_to_map (reverse visit) ∪ result.
Proof.
  revert result. induction visit as [|[k v] later IH]; intros result.
  { cbn. by rewrite (left_id_L ∅ (∪)). }
  cbn [foldl fst snd]. rewrite IH, reverse_cons. unfold zip_entry.
  rewrite list_to_map_app.
  rewrite <- (assoc_L (∪)). f_equal. cbn.
  by rewrite <- insert_union_l, (left_id_L ∅ (∪)).
Qed.

Lemma UnZip_files_error files result m e :
  UnZip_files files result = (m, Some e) -> m = ∅.
Proof.
  revert result. induction files as [|contentFile later IH]; intros result; cbn; [done|].
  destruct (zf_read contentFile); [apply IH|]. by intros [= <- _].
Qed.

Section Collaborator_further.

Variable url_Parse : string -> option error.
Variable range : forall A : Type, gmap string A -> list (string * A).
Variable zip_encode : list zip_entry -> list byte.
Variable zip_decode : list byte -> option (list zip_File).

Hypothesis range_visits_all : forall A (m : gmap string A), range A m ≡ₚ map_to_list m.

Hypothesis zip_lossless :
  forall es, Forall entry_ok es -> zip_decode (zip_encode es) = Some (stored <$> es).

(** [SaveNetworkFile] step by step, for a URL that parses. *)
Lemma SaveNetworkFile_parsed targetUrl bucket key headers w :
  url_Parse targetUrl = None ->
  SaveNetworkFile url_Parse range targetUrl bucket key headers w =
  match web w (request_for range targetUrl headers) with
  | inr f =>
      (Ret ([], Some (Transport f)),
       record_call (CallHttpDo 0 (request_for range targetUrl headers)) w)
  | inl result =>
      match body_fault result with
      | Some f =>
          (Ret ([], Some (Transport f)),
           record_call (CallHttpDo 0 (request_for range targetUrl headers)) w)
      | None =>
          match PutFile bucket key (Body result)
                  (record_call (CallHttpDo 0 (request_for range targetUrl headers)) w) with
          | (Ret err, w') => (Ret (Body result, err), w')
          | (Panic p, w') => (Panic p, w')
          end
      end
  end.
Proof.
  intros Hurl. unfold SaveNetworkFile, http_NewRequest. rewrite Hurl.
  assert (Hreq : match headers with
                 | Some hs => add_headers
                     (Some {| Method := "GET"; URL := targetUrl; Header := [] |})
                     (range string hs)
                 | None => Ret (Some {| Method := "GET"; URL := targetUrl; Header := [] |})
                 end = Ret (Some (request_for range targetUrl headers))).
  { unfold request_for. destruct headers; [|done]. by rewrite add_headers_request. }
  rewrite Hreq. unfold http_Do, read_body, bind, ret, modify, get_world. cbn.
  destruct (web w (request_for range targetUrl headers)) as [result|f]; cbn; [|done].
  destruct (body_fault result); cbn; [done|].
  unfold http_Client_zero, ClientTimeout.
  by destruct (PutFile bucket key (Body result) _) as [[err|p] w'].
Qed.

(** X18.  When the server cannot be reached, or the body breaks off while
    it is read, [SaveNetworkFile] returns no bytes and that very fault,
    unwrapped; the GET is the only call it has made: no session with the
    store is opened and nothing is stored. *)
Theorem SaveNetworkFile_fetch_failure targetUrl bucket key headers w f :
  url_Parse targetUrl = None ->
  web w (request_for range targetUrl headers) = inr f \/
  (exists result, web w (request_for range targetUrl headers) = inl result /\
                  body_fault result = Some f) ->
  SaveNetworkFile url_Parse range targetUrl bucket key headers w
    = (Ret ([], Some (Transport f)),
       record_call (CallHttpDo 0 (request_for range targetUrl headers)) w).
Proof.
  intros Hurl Hfail. rewrite SaveNetworkFile_parsed by done.
  destruct Hfail as [-> | (result & -> & ->)]; done.
Qed.


(** X20.  The GET of [SaveNetworkFile] goes out first and without any
    deadline ([http.Client{}] has no timeout); what follows are the calls of
    [PutFile], whose writer has its 60 seconds. *)
Theorem SaveNetworkFile_get_has_no_deadline targetUrl bucket key headers w :
  url_Parse targetUrl = None ->
  exists later,
    calls (snd (SaveNetworkFile url_Parse range targetUrl bucket key headers w))
      = (calls w ++ CallHttpDo 0 (request_for range targetUrl headers) :: later)%list /\
    call_deadline (CallHttpDo 0 (request_for range targetUrl headers)) = None /\
    Forall (fun c => opens_session c = false -> call_deadline c = Some Timeout) later.
Proof.
  intros Hurl. rewrite SaveNetworkFile_parsed by done.
  destruct (web w (request_for range targetUrl headers)) as [result|f].
  2:{ exists []. by repeat split. }
  destruct (body_fault result).
  { exists []. by repeat split. }
  destruct (PutFile_calls bucket key (Body result)
              (record_call (CallHttpDo 0 (request_for range targetUrl headers)) w))
    as (later & Hcalls & Hdl).
  exists (CallNewClient context_Background :: later). split; [|split; [done|]].
  - destruct (PutFile bucket key (Body result) _) as [[err|p] w']; cbn in *;
      by rewrite Hcalls, <- app_assoc.
  - constructor; [done|]. eapply Forall_impl; [exact Hdl|]. auto.
Qed.

(** X21.  [Zip] never panics, in whatever order the map is visited, and
    with an error it returns no bytes. *)
Theorem Zip_never_panics (files : gmap string (list byte)) :
  exists archive err,
    Zip range zip_encode files = Ret (archive, err) /\
    (err <> None -> archive = []).
Proof.
  unfold Zip.
  destruct (Zip_entries_returns zip_NewWriter (range (list byte) files)) as (zw & err & ->).
  destruct err as [e|]; eexists _, _; (split; [done|]); done.
Qed.

(** X22.  [Zip] returns an archive exactly when every name fits 16 bits of
    length and no name ending in a slash carries bytes, and the archive then
    encodes one entry for each key of the map, under that key and with its
    bytes, in the order the map was visited. *)
Theorem Zip_succeeds_exactly_on_accepted_entries (files : gmap string (list byte)) archive :
  Zip range zip_encode files = Ret (archive, None) <->
  map_Forall (fun name content => entry_ok (name, content)) files /\
  archive = zip_encode (range (list byte) files).
Proof.
  unfold Zip. split.
  - destruct (Zip_entries zip_NewWriter _) as [[zw [e|]]|p] eqn:Hrun; try done.
    intros [= <-]. pose proof (Zip_entries_None_inv _ _ _ Hrun) as Hok.
    destruct (Zip_entries_accepted zip_NewWriter _ Hok) as (zw' & Hrun' & Hall).
    rewrite Hrun in Hrun'. injection Hrun' as <-. cbn in Hall. rewrite Hall.
    split; [|done]. intros name content Hin.
    rewrite Forall_forall in Hok. apply (Hok (name, content)).
    rewrite range_visits_all. by apply elem_of_map_to_list.
  - intros (Hok & ->).
    assert (Hvisit : Forall entry_ok (range (list byte) files)).
    { apply Forall_forall. intros [name content] Hin.
      rewrite range_visits_all in Hin. apply elem_of_map_to_list in Hin.
      by apply (Hok name content). }
    destruct (Zip_entries_accepted zip_NewWriter _ Hvisit) as (zw & -> & Hall).
    cbn in Hall. by rewrite Hall.
Qed.

(** X23.  With an error, [UnZip] returns no map: neither for bytes that are
    not an archive nor when an entry in the middle cannot be read. *)
Theorem UnZip_error_gives_no_map file :
  snd (UnZip zip_decode file) <> None -> fst (UnZip zip_decode file) = ∅.
Proof.
  unfold UnZip. destruct (zip_decode file) as [files|]; [|done].
  destruct (UnZip_files files ∅) as [m [e|]] eqn:Hrun; [|done].
  intros _. cbn. by eapply UnZip_files_error.
Qed.

(** X24.  [UnZip] of an archive whose entries can all be read returns, for
    each name, the bytes of the last entry under that name: of an archive
    that holds a name twice, the earlier entry is lost. *)
Theorem UnZip_last_entry_wins file (es : list zip_entry) :
  zip_decode file = Some (stored <$> es) ->
  UnZip zip_decode file = (list_to_map (reverse es), None).
Proof.
  intros Hdec. unfold UnZip. rewrite Hdec, UnZip_files_stored, foldl_insert_reverse.
  by rewrite (right_id_L ∅ (∪)).
Qed.


End Collaborator_further.

(** ** Worked examples of the further properties *)

Lemma SaveNetworkFile_reports_bad_url_witness :
  SaveNetworkFile ref_url_Parse ref_range ":bad" "bkt" "k" None demo_world
    = (Ret ([], Some (errors_New "missing protocol scheme")), demo_world).
Proof.
  apply (SaveNetworkFile_reports_bad_url ref_url_Parse ref_range ref_range_visits_all
           ":bad" "bkt" "k" None demo_world (errors_New "missing protocol scheme")).
  - reflexivity.
  - by left.
Defined.

Lemma SaveNetworkFile_fetch_failure_witness :
  SaveNetworkFile ref_url_Parse ref_range "http://host/x" "bkt" "k" None broken_web_world
    = (Ret ([], Some (Transport NetworkFailure)),
       record_call (CallHttpDo 0 (request_for ref_range "http://host/x" None))
         broken_web_world).
Proof.
  apply (SaveNetworkFile_fetch_failure ref_url_Parse ref_range
           "http://host/x" "bkt" "k" None broken_web_world NetworkFailure).
  - reflexivity.
  - right. exists broken_page. split; reflexivity.
Defined.


Lemma SaveNetworkFile_get_has_no_deadline_witness :
  exists later,
    calls (snd (SaveNetworkFile ref_url_Parse ref_range "http://host/x" "bkt" "k" None
                  demo_web_world))
      = (calls demo_web_world
         ++ CallHttpDo 0 (request_for ref_range "http://host/x" None) :: later)%list /\
    call_deadline (CallHttpDo 0 (request_for ref_range "http://host/x" None)) = None /\
    Forall (fun c => opens_session c = false -> call_deadline c = Some Timeout) later.
Proof.
  apply (SaveNetworkFile_get_has_no_deadline ref_url_Parse ref_range
           "http://host/x" "bkt" "k" None demo_web_world).
  reflexivity.
Defined.

Lemma Zip_succeeds_exactly_on_accepted_entries_witness :
  Zip ref_range ref_encode demo_files
    = Ret (ref_encode (ref_range (list byte) demo_files), None) <->
  map_Forall (fun name content => entry_ok (name, content)) demo_files /\
  ref_encode (ref_range (list byte) demo_files)
    = ref_encode (ref_range (list byte) demo_files).
Proof.
  apply (Zip_succeeds_exactly_on_accepted_entries ref_range ref_encode
           ref_range_visits_all demo_files
           (ref_encode (ref_range (list byte) demo_files))).
Defined.

Lemma UnZip_error_gives_no_map_witness :
  fst (UnZip ref_decode []) = ∅.
Proof.
  apply (UnZip_error_gives_no_map ref_decode []). vm_compute. discriminate.
Defined.

Lemma UnZip_last_entry_wins_witness :
  UnZip ref_decode (ref_encode twice_a) = (list_to_map (reverse twice_a), None).
Proof.
  apply (UnZip_last_entry_wins ref_decode (ref_encode twice_a) twice_a).
  apply ref_codec_lossless.
Defined.

